(** * sqlc, internal/postgresql/parse.go: from the PostgreSQL parse tree to the
      normalized DDL statements.

    A shallow embedding of [stringSlice], [join], [parseTableName],
    [translate] and [Parser.Parse], and the properties the specification
    states about them.

    Conventions of the embedding.
    - A Go pointer [*T] is [ptr T := option T]: [None] is [nil], [Some x] is
      [&x].  Dereferencing [nil] is a run-time panic.
    - A Go interface value of type [nodes.Node] is a value of the inductive
      [nodes.Node], whose constructor [nodes.Nil] is the nil interface.
    - A Go result pair [(v, err)] is a Rocq pair; [err : option error] and
      [None] is the nil error.
    - A Go string field left out of a composite literal holds the zero
      value, the empty string.
    - A call that can panic lives in [exec]. *)

From Stdlib Require Import String List Bool Arith Lia.
Import ListNotations.
Local Open Scope string_scope.
Local Open Scope list_scope.

Set Implicit Arguments.
Set Warnings "-register-all".

Abbreviation ptr := option (only parsing).

(** ** Run-time faults *)

Inductive panic : Type :=
| nil_dereference          (* invalid memory address or nil pointer dereference *)
| interface_conversion.    (* a type assertion [x.(T)] without the ok form failed *)

Inductive exec (A : Type) : Type :=
| Returns (a : A)
| Panics (p : panic).

Arguments Returns {A} a.
Arguments Panics {A} p.

Definition bind {A B : Type} (c : exec A) (k : A -> exec B) : exec B :=
  match c with
  | Returns a => k a
  | Panics p => Panics p
  end.

Notation "x <- c ;; k" := (bind c (fun x => k))
  (at level 61, c at next level, right associativity).

(** [*p] *)
Definition deref {A : Type} (p : ptr A) : exec A :=
  match p with
  | Some a => Returns a
  | None => Panics nil_dereference
  end.

(** ** Errors: a Go [error] is known by its message *)

Record error : Type := New { Error : string }.

(** [fmt.Errorf(format, arg)] for the formats of parse.go, which all end in
    a single verb: the message is the text before the verb followed by the
    formatted argument. *)
Definition Errorf (prefix arg : string) : error := New (prefix ++ arg).

(** ** Package nodes: the parse tree of the external parser

    Only the fields parse.go reads are kept. *)

Module nodes.

Inductive AlterTableType : Type :=
| AT_AddColumn
| AT_AlterColumnType
| AT_DropColumn
| AT_DropNotNull
| AT_SetNotNull
| AT_other (code : nat).   (* every other member of the enumeration *)

Inductive ObjectType : Type :=
| OBJECT_TABLE
| OBJECT_other (code : nat).   (* OBJECT_VIEW, OBJECT_INDEX, ... *)

Inductive ConstrType : Type :=
| CONSTR_NULL
| CONSTR_NOTNULL
| CONSTR_DEFAULT
| CONSTR_CHECK
| CONSTR_PRIMARY
| CONSTR_UNIQUE
| CONSTR_FOREIGN
| CONSTR_other (code : nat).

Record RangeVar : Type := {
  Catalogname : ptr string;
  Schemaname : ptr string;
  Relname : ptr string
}.

Record Constraint : Type := { Contype : ConstrType }.

Record List_ (N : Type) : Type := { Items : list N }.

Record TypeName_ (N : Type) : Type := { Names : List_ N }.

Record ColumnDef_ (N : Type) : Type := {
  Colname : ptr string;
  TypeName : ptr (TypeName_ N);
  Constraints : List_ N
}.

Record AlterTableCmd_ (N : Type) : Type := {
  Subtype : AlterTableType;
  Name : ptr string;
  Def : N;
  MissingOk : bool
}.

Record AlterTableStmt_ (N : Type) : Type := {
  Relation : ptr RangeVar;
  Cmds : List_ N
}.

Record CreateStmt_ (N : Type) : Type := {
  CreateStmt_Relation : ptr RangeVar;
  TableElts : List_ N;
  IfNotExists : bool
}.

Record DropStmt_ (N : Type) : Type := {
  Objects : List_ N;
  RemoveType : ObjectType;
  DropStmt_MissingOk : bool
}.

Record RawStmt_ (N : Type) : Type := { Stmt : N }.

(** The interface [nodes.Node] with the node types parse.go switches on.
    [Other T] stands for a node of any of the parser's remaining struct
    types, [T] being what [%T] prints for it. *)
Inductive Node : Type :=
| Nil
| String (Str : string)
| Integer (Ival : nat)
| List (l : List_ Node)
| N_RangeVar (r : RangeVar)
| N_TypeName (t : TypeName_ Node)
| N_Constraint (c : Constraint)
| N_ColumnDef (d : ColumnDef_ Node)
| N_AlterTableCmd (c : AlterTableCmd_ Node)
| N_AlterTableStmt (s : AlterTableStmt_ Node)
| N_CreateStmt (s : CreateStmt_ Node)
| N_DropStmt (s : DropStmt_ Node)
| N_RawStmt (s : RawStmt_ Node)
| Other (T : string).

Definition ListT := List_ Node.
Definition TypeNameT := TypeName_ Node.
Definition ColumnDef := ColumnDef_ Node.
Definition AlterTableCmd := AlterTableCmd_ Node.
Definition AlterTableStmt := AlterTableStmt_ Node.
Definition CreateStmt := CreateStmt_ Node.
Definition DropStmt := DropStmt_ Node.
Definition RawStmt := RawStmt_ Node.

(** What the verb [%T] prints for a node. *)
Definition TypeOf (n : Node) : string :=
  match n with
  | Nil => "<nil>"
  | String _ => "nodes.String"
  | Integer _ => "nodes.Integer"
  | List _ => "nodes.List"
  | N_RangeVar _ => "nodes.RangeVar"
  | N_TypeName _ => "nodes.TypeName"
  | N_Constraint _ => "nodes.Constraint"
  | N_ColumnDef _ => "nodes.ColumnDef"
  | N_AlterTableCmd _ => "nodes.AlterTableCmd"
  | N_AlterTableStmt _ => "nodes.AlterTableStmt"
  | N_CreateStmt _ => "nodes.CreateStmt"
  | N_DropStmt _ => "nodes.DropStmt"
  | N_RawStmt _ => "nodes.RawStmt"
  | Other T => T
  end.

End nodes.

(** ** Package ast: the normalized statements

    The package is declared outside parse.go.  Each struct is given the
    fields that parse.go's composite literals and assignments name, with the
    type of the value parse.go stores there: [parts[0]] and [*n.Relname] are
    strings, so the three fields of [TableName] are Go strings, whose zero
    value is the empty string. *)

Module ast.

Record TableName : Type := {
  Catalog : string;
  Schema : string;
  Name : string
}.

(** [ast.TableName{}] *)
Definition TableName_zero : TableName :=
  {| Catalog := ""; Schema := ""; Name := "" |}.

Record TypeName : Type := { TypeName_Name : string }.

Record ColumnDef : Type := {
  Colname : string;
  ColumnDef_TypeName : ptr TypeName;
  IsNotNull : bool
}.

Inductive AlterTableType : Type :=
| AT_AddColumn
| AT_AlterColumnType
| AT_DropColumn
| AT_DropNotNull
| AT_SetNotNull.

Record AlterTableCmd : Type := {
  Subtype : AlterTableType;
  AlterTableCmd_Name : ptr string;
  Def : ptr ColumnDef;
  MissingOk : bool
}.

Record List_ (N : Type) : Type := { Items : list N }.

Record AlterTableStmt_ (N : Type) : Type := {
  Table : ptr TableName;
  Cmds : ptr (List_ N)
}.

Record CreateTableStmt : Type := {
  CreateTableStmt_Name : ptr TableName;
  IfNotExists : bool;
  Cols : list (ptr ColumnDef)
}.

Record DropTableStmt : Type := {
  IfExists : bool;
  Tables : list (ptr TableName)
}.

(** The interface [ast.Node], inhabited here by the pointers parse.go
    stores in it. *)
Inductive Node : Type :=
| N_AlterTableCmd (c : AlterTableCmd)
| N_AlterTableStmt (s : AlterTableStmt_ Node)
| N_CreateTableStmt (s : CreateTableStmt)
| N_DropTableStmt (s : DropTableStmt).

Definition ListT := List_ Node.
Definition AlterTableStmt := AlterTableStmt_ Node.

Record RawStmt : Type := { Stmt : Node }.

Record Statement : Type := { Raw : ptr RawStmt }.

End ast.

(** ** parse.go *)

(** [stringSlice]: the [Str] of the items that are [nodes.String], in
    order; every other item is passed over. *)
Fixpoint stringSlice_items (items : list nodes.Node) : list string :=
  match items with
  | [] => []
  | nodes.String s :: rest => s :: stringSlice_items rest
  | _ :: rest => stringSlice_items rest
  end.

Definition stringSlice (lst : nodes.ListT) : list string :=
  stringSlice_items (nodes.Items lst).

(** [join]: [strings.Join(stringSlice(list), sep)]. *)
Definition join (lst : nodes.ListT) (sep : string) : string :=
  String.concat sep (stringSlice lst).

Definition parseTableName (node : nodes.Node) : ptr ast.TableName * option error :=
  match node with
  | nodes.List n =>
      match stringSlice n with
      | [p0] =>
          (Some {| ast.Catalog := ""; ast.Schema := ""; ast.Name := p0 |}, None)
      | [p0; p1] =>
          (Some {| ast.Catalog := ""; ast.Schema := p0; ast.Name := p1 |}, None)
      | [p0; p1; p2] =>
          (Some {| ast.Catalog := p0; ast.Schema := p1; ast.Name := p2 |}, None)
      | _ => (None, Some (Errorf "invalid table name: " (join n ".")))
      end
  | nodes.N_RangeVar n =>
      let name := ast.TableName_zero in
      let name :=
        match nodes.Catalogname n with
        | Some c => {| ast.Catalog := c; ast.Schema := ast.Schema name; ast.Name := ast.Name name |}
        | None => name
        end in
      let name :=
        match nodes.Schemaname n with
        | Some s => {| ast.Catalog := ast.Catalog name; ast.Schema := s; ast.Name := ast.Name name |}
        | None => name
        end in
      let name :=
        match nodes.Relname n with
        | Some r => {| ast.Catalog := ast.Catalog name; ast.Schema := ast.Schema name; ast.Name := r |}
        | None => name
        end in
      (Some name, None)
  | n => (None, Some (Errorf "unexpected node type: " (nodes.TypeOf n)))
  end.

(** Modelled from the spec: [isNotNull] is called by parse.go and declared
    in another file of the package.  Section 4.2: true if the constraint
    list contains an explicit NOT-NULL constraint or a PRIMARY KEY
    constraint; false otherwise. *)
Definition isNotNull_constraint (c : nodes.Node) : bool :=
  match c with
  | nodes.N_Constraint k =>
      match nodes.Contype k with
      | nodes.CONSTR_NOTNULL => true
      | nodes.CONSTR_PRIMARY => true
      | _ => false
      end
  | _ => false
  end.

Definition isNotNull (n : nodes.ColumnDef) : bool :=
  existsb isNotNull_constraint (nodes.Items (nodes.Constraints n)).

(** [cmd.Def.(nodes.ColumnDef)]: the one-result form of the type assertion,
    which panics when the dynamic type differs. *)
Definition assert_ColumnDef (n : nodes.Node) : exec nodes.ColumnDef :=
  match n with
  | nodes.N_ColumnDef d => Returns d
  | _ => Panics interface_conversion
  end.

(** The body of the loop over [n.Cmds.Items] of the ALTER TABLE case: [acc]
    is [at.Cmds.Items] so far.  [item] is allocated with [Name] and
    [MissingOk]; every branch that reaches the append has assigned
    [Subtype] (and [Def] where it has one) before, so the item is written
    here once those are known. *)
Definition translate_cmd (cmd : nodes.Node) (acc : list ast.Node) : exec (list ast.Node) :=
  match cmd with
  | nodes.N_AlterTableCmd cmd =>
      let item := fun (st : ast.AlterTableType) (def : ptr ast.ColumnDef) =>
        ast.N_AlterTableCmd
          {| ast.Subtype := st;
             ast.AlterTableCmd_Name := nodes.Name cmd;
             ast.Def := def;
             ast.MissingOk := nodes.MissingOk cmd |} in
      match nodes.Subtype cmd with
      | nodes.AT_AddColumn =>
          d <- assert_ColumnDef (nodes.Def cmd) ;;
          colname <- deref (nodes.Colname d) ;;
          tn <- deref (nodes.TypeName d) ;;
          Returns (acc ++ [item ast.AT_AddColumn
            (Some {| ast.Colname := colname;
                     ast.ColumnDef_TypeName :=
                       Some {| ast.TypeName_Name := join (nodes.Names tn) "." |};
                     ast.IsNotNull := isNotNull d |})])
      | nodes.AT_AlterColumnType =>
          d <- assert_ColumnDef (nodes.Def cmd) ;;
          colname <- deref (nodes.Colname d) ;;
          tn <- deref (nodes.TypeName d) ;;
          Returns (acc ++ [item ast.AT_AlterColumnType
            (Some {| ast.Colname := colname;
                     ast.ColumnDef_TypeName :=
                       Some {| ast.TypeName_Name := join (nodes.Names tn) "." |};
                     ast.IsNotNull := isNotNull d |})])
      | nodes.AT_DropColumn => Returns (acc ++ [item ast.AT_DropColumn None])
      | nodes.AT_DropNotNull => Returns (acc ++ [item ast.AT_DropNotNull None])
      | nodes.AT_SetNotNull => Returns (acc ++ [item ast.AT_SetNotNull None])
      | nodes.AT_other _ => Returns acc
      end
  | _ => Returns acc
  end.

Fixpoint translate_cmds (cmds : list nodes.Node) (acc : list ast.Node) : exec (list ast.Node) :=
  match cmds with
  | [] => Returns acc
  | cmd :: rest =>
      acc' <- translate_cmd cmd acc ;;
      translate_cmds rest acc'
  end.

(** The body of the loop over [n.TableElts.Items] of the CREATE TABLE case:
    [acc] is [create.Cols] so far. *)
Definition translate_elt (elt : nodes.Node) (acc : list (ptr ast.ColumnDef)) : exec (list (ptr ast.ColumnDef)) :=
  match elt with
  | nodes.N_ColumnDef n =>
      colname <- deref (nodes.Colname n) ;;
      tn <- deref (nodes.TypeName n) ;;
      Returns (acc ++ [Some {| ast.Colname := colname;
                               ast.ColumnDef_TypeName :=
                                 Some {| ast.TypeName_Name := join (nodes.Names tn) "." |};
                               ast.IsNotNull := isNotNull n |}])
  | _ => Returns acc
  end.

Fixpoint translate_elts (elts : list nodes.Node) (acc : list (ptr ast.ColumnDef)) : exec (list (ptr ast.ColumnDef)) :=
  match elts with
  | [] => Returns acc
  | elt :: rest =>
      acc' <- translate_elt elt acc ;;
      translate_elts rest acc'
  end.

(** The loop over [n.Objects.Items] of the DROP case: [acc] is
    [drop.Tables] so far; [inl err] is the early [return nil, err]. *)
Fixpoint translate_objects (RemoveType : nodes.ObjectType) (objs : list nodes.Node)
    (acc : list (ptr ast.TableName)) : error + list (ptr ast.TableName) :=
  match objs with
  | [] => inr acc
  | obj :: rest =>
      match RemoveType with
      | nodes.OBJECT_TABLE =>
          let (name, err) := parseTableName obj in
          match err with
          | Some e => inl e
          | None => translate_objects RemoveType rest (acc ++ [name])
          end
      | _ => translate_objects RemoveType rest acc
      end
  end.

Definition translate (node : nodes.Node) : exec (option ast.Node * option error) :=
  match node with
  | nodes.N_AlterTableStmt n =>
      rel <- deref (nodes.Relation n) ;;
      let (name, err) := parseTableName (nodes.N_RangeVar rel) in
      match err with
      | Some e => Returns (None, Some e)
      | None =>
          items <- translate_cmds (nodes.Items (nodes.Cmds n)) [] ;;
          Returns (Some (ast.N_AlterTableStmt
                     {| ast.Table := name;
                        ast.Cmds := Some {| ast.Items := items |} |}), None)
      end
  | nodes.N_CreateStmt n =>
      rel <- deref (nodes.CreateStmt_Relation n) ;;
      let (name, err) := parseTableName (nodes.N_RangeVar rel) in
      match err with
      | Some e => Returns (None, Some e)
      | None =>
          cols <- translate_elts (nodes.Items (nodes.TableElts n)) [] ;;
          Returns (Some (ast.N_CreateTableStmt
                     {| ast.CreateTableStmt_Name := name;
                        ast.IfNotExists := nodes.IfNotExists n;
                        ast.Cols := cols |}), None)
      end
  | nodes.N_DropStmt n =>
      match translate_objects (nodes.RemoveType n) (nodes.Items (nodes.Objects n)) [] with
      | inl e => Returns (None, Some e)
      | inr tables =>
          Returns (Some (ast.N_DropTableStmt
                     {| ast.IfExists := nodes.DropStmt_MissingOk n;
                        ast.Tables := tables |}), None)
      end
  | _ => Returns (None, None)
  end.

(** ** Parser.Parse

    The reader and the external parser are the two collaborators of
    [Parse]: a reader is what [ioutil.ReadAll] gets out of it, and
    [pg_Parse] is [pg.Parse], from the text to the parse tree's
    [Statements] or an error. *)

Record Reader : Type := {
  ReadAll_contents : string;
  ReadAll_err : option error
}.

(** The loop over [tree.Statements]: [stmts] is the slice so far. *)
Fixpoint Parse_loop (statements : list nodes.Node) (stmts : list ast.Statement)
    : exec (list ast.Statement * option error) :=
  match statements with
  | [] => Returns (stmts, None)
  | stmt :: rest =>
      match stmt with
      | nodes.N_RawStmt raw =>
          r <- translate (nodes.Stmt raw) ;;
          match r with
          | (_, Some err) => Returns ([], Some err)
          | (Some n, None) =>
              Parse_loop rest (stmts ++ [{| ast.Raw := Some {| ast.Stmt := n |} |}])
          | (None, None) => Parse_loop rest stmts
          end
      | _ => Returns ([], Some (Errorf "expected RawStmt; got " (nodes.TypeOf stmt)))
      end
  end.

Section Parser.

Variable pg_Parse : string -> list nodes.Node * option error.

Definition Parse (r : Reader) : exec (list ast.Statement * option error) :=
  match ReadAll_err r with
  | Some err => Returns ([], Some err)
  | None =>
      let (tree_Statements, err) := pg_Parse (ReadAll_contents r) in
      match err with
      | Some err => Returns ([], Some err)
      | None => Parse_loop tree_Statements []
      end
  end.

End Parser.

(** * Vocabulary of the properties *)

(** The flat identifier list [a.b.c] as the parser hands it over: a
    [nodes.List] whose items are [nodes.String]. *)
Definition identifier_list (parts : list string) : nodes.Node :=
  nodes.List {| nodes.Items := map nodes.String parts |}.

(** The value a string field holds after the guarded assignment
    [if p != nil { field = *p }] on a zero-valued struct. *)
Definition or_zero (p : ptr string) : string :=
  match p with
  | Some s => s
  | None => ""
  end.

Definition relation_absent_schema : nodes.RangeVar :=
  {| nodes.Catalogname := None; nodes.Schemaname := None; nodes.Relname := Some "t" |}.

Definition relation_empty_schema : nodes.RangeVar :=
  {| nodes.Catalogname := None; nodes.Schemaname := Some ""; nodes.Relname := Some "t" |}.

(** The top-level statement kinds [translate] has a case for. *)
Definition supported (node : nodes.Node) : bool :=
  match node with
  | nodes.N_AlterTableStmt _ => true
  | nodes.N_CreateStmt _ => true
  | nodes.N_DropStmt _ => true
  | _ => false
  end.

(** The statement [Parse] appends for a translated node. *)
Definition statement_of (n : ast.Node) : ast.Statement :=
  {| ast.Raw := Some {| ast.Stmt := n |} |}.

(** The statements kept from a run of translation results. *)
Definition kept (results : list (option ast.Node)) : list ast.Statement :=
  flat_map (fun o => match o with Some n => [statement_of n] | None => [] end) results.

Definition raw (s : nodes.Node) : nodes.Node :=
  nodes.N_RawStmt {| nodes.Stmt := s |}.

(** The column-definition elements of a list of table elements. *)
Definition column_definitions (elts : list nodes.Node) : list nodes.ColumnDef :=
  flat_map (fun e => match e with nodes.N_ColumnDef d => [d] | _ => [] end) elts.

(** The column a column-definition node stands for, when its name and type
    pointers are set. *)
Definition extract_column (d : nodes.ColumnDef) : ptr ast.ColumnDef :=
  match nodes.Colname d, nodes.TypeName d with
  | Some colname, Some tn =>
      Some {| ast.Colname := colname;
              ast.ColumnDef_TypeName :=
                Some {| ast.TypeName_Name := String.concat "." (stringSlice (nodes.Names tn)) |};
              ast.IsNotNull := isNotNull d |}
  | _, _ => None
  end.

(** An ALTER TABLE command whose subtype is none of the five translated
    ones. *)
Definition unsupported_command (c : nodes.Node) : Prop :=
  exists cmd, c = nodes.N_AlterTableCmd cmd /\
    nodes.Subtype cmd <> nodes.AT_AddColumn /\
    nodes.Subtype cmd <> nodes.AT_AlterColumnType /\
    nodes.Subtype cmd <> nodes.AT_DropColumn /\
    nodes.Subtype cmd <> nodes.AT_DropNotNull /\
    nodes.Subtype cmd <> nodes.AT_SetNotNull.

(** A command that carries a column definition by its subtype. *)
Definition carries_definition (cmd : nodes.AlterTableCmd) : Prop :=
  nodes.Subtype cmd = nodes.AT_AddColumn \/ nodes.Subtype cmd = nodes.AT_AlterColumnType.

Definition is_ColumnDef (n : nodes.Node) : Prop :=
  exists d, n = nodes.N_ColumnDef d.

(** The object references of a DROP statement that name tables: all of
    them when the statement removes tables, none otherwise. *)
Definition table_objects (n : nodes.DropStmt) : list nodes.Node :=
  match nodes.RemoveType n with
  | nodes.OBJECT_TABLE => nodes.Items (nodes.Objects n)
  | _ => []
  end.

Definition resolves (obj : nodes.Node) : Prop :=
  snd (parseTableName obj) = None.

(** The shape the external parser promises: every command that carries a
    definition by its subtype holds a column definition. *)
Definition payloads_shaped (cmds : list nodes.Node) : Prop :=
  forall cmd, In (nodes.N_AlterTableCmd cmd) cmds ->
    carries_definition cmd -> is_ColumnDef (nodes.Def cmd).

(** ** Sample parse trees

    The trees the parser builds for the statements of the specification's
    section 8, and the statements expected for them. *)

Definition relation_t : nodes.RangeVar :=
  {| nodes.Catalogname := None; nodes.Schemaname := None; nodes.Relname := Some "t" |}.

Definition type_of_name (parts : list string) : ptr nodes.TypeNameT :=
  Some {| nodes.Names := {| nodes.Items := map nodes.String parts |} |}.

Definition column_a_int : nodes.ColumnDef :=
  {| nodes.Colname := Some "a";
     nodes.TypeName := type_of_name ["pg_catalog"; "int4"];
     nodes.Constraints := {| nodes.Items := [] |} |}.

Definition column_b_text_not_null : nodes.ColumnDef :=
  {| nodes.Colname := Some "b";
     nodes.TypeName := type_of_name ["text"];
     nodes.Constraints :=
       {| nodes.Items := [nodes.N_Constraint {| nodes.Contype := nodes.CONSTR_NOTNULL |}] |} |}.

Definition column_id_primary : nodes.ColumnDef :=
  {| nodes.Colname := Some "id";
     nodes.TypeName := type_of_name ["pg_catalog"; "int4"];
     nodes.Constraints :=
       {| nodes.Items := [nodes.N_Constraint {| nodes.Contype := nodes.CONSTR_PRIMARY |}] |} |}.

(** CREATE TABLE IF NOT EXISTS t (a int, CHECK (...), b text NOT NULL) *)
Definition create_t : nodes.CreateStmt :=
  {| nodes.CreateStmt_Relation := Some relation_t;
     nodes.TableElts :=
       {| nodes.Items := [nodes.N_ColumnDef column_a_int;
                          nodes.N_Constraint {| nodes.Contype := nodes.CONSTR_CHECK |};
                          nodes.N_ColumnDef column_b_text_not_null] |};
     nodes.IfNotExists := true |}.

Definition table_t : ptr ast.TableName :=
  Some {| ast.Catalog := ""; ast.Schema := ""; ast.Name := "t" |}.

Definition create_t_stmt : ast.Node :=
  ast.N_CreateTableStmt
    {| ast.CreateTableStmt_Name := table_t;
       ast.IfNotExists := true;
       ast.Cols :=
         [Some {| ast.Colname := "a";
                  ast.ColumnDef_TypeName := Some {| ast.TypeName_Name := "pg_catalog.int4" |};
                  ast.IsNotNull := false |};
          Some {| ast.Colname := "b";
                  ast.ColumnDef_TypeName := Some {| ast.TypeName_Name := "text" |};
                  ast.IsNotNull := true |}] |}.

(** ALTER TABLE t ADD COLUMN id int PRIMARY KEY, as a single command *)
Definition add_column_id : nodes.AlterTableCmd :=
  {| nodes.Subtype := nodes.AT_AddColumn;
     nodes.Name := None;
     nodes.Def := nodes.N_ColumnDef column_id_primary;
     nodes.MissingOk := false |}.

(** A command of a subtype parse.go has no case for, such as ADD
    CONSTRAINT. *)
Definition add_constraint : nodes.AlterTableCmd :=
  {| nodes.Subtype := nodes.AT_other 14;
     nodes.Name := None;
     nodes.Def := nodes.N_Constraint {| nodes.Contype := nodes.CONSTR_UNIQUE |};
     nodes.MissingOk := false |}.

Definition alter_t_add_constraint : nodes.AlterTableStmt :=
  {| nodes.Relation := Some relation_t;
     nodes.Cmds := {| nodes.Items := [nodes.N_AlterTableCmd add_constraint] |} |}.

Definition alter_t_no_command : ast.Node :=
  ast.N_AlterTableStmt {| ast.Table := table_t; ast.Cmds := Some {| ast.Items := [] |} |}.

(** An ADD COLUMN command whose payload is a constraint node. *)
Definition add_column_misshaped : nodes.AlterTableCmd :=
  {| nodes.Subtype := nodes.AT_AddColumn;
     nodes.Name := None;
     nodes.Def := nodes.N_Constraint {| nodes.Contype := nodes.CONSTR_UNIQUE |};
     nodes.MissingOk := false |}.

Definition alter_t_misshaped : nodes.AlterTableStmt :=
  {| nodes.Relation := Some relation_t;
     nodes.Cmds := {| nodes.Items := [nodes.N_AlterTableCmd add_constraint;
                                      nodes.N_AlterTableCmd add_column_misshaped] |} |}.

Definition alter_t_add_id : nodes.AlterTableStmt :=
  {| nodes.Relation := Some relation_t;
     nodes.Cmds := {| nodes.Items := [nodes.N_AlterTableCmd add_column_id] |} |}.

(** DROP TABLE IF EXISTS a, public.b *)
Definition drop_a_b : nodes.DropStmt :=
  {| nodes.Objects := {| nodes.Items := [identifier_list ["a"]; identifier_list ["public"; "b"]] |};
     nodes.RemoveType := nodes.OBJECT_TABLE;
     nodes.DropStmt_MissingOk := true |}.

Definition drop_a_b_stmt : ast.Node :=
  ast.N_DropTableStmt
    {| ast.IfExists := true;
       ast.Tables := [Some {| ast.Catalog := ""; ast.Schema := ""; ast.Name := "a" |};
                      Some {| ast.Catalog := ""; ast.Schema := "public"; ast.Name := "b" |}] |}.

(** DROP TABLE a.b.c.d *)
Definition drop_four_parts : nodes.DropStmt :=
  {| nodes.Objects := {| nodes.Items := [identifier_list ["a"; "b"; "c"; "d"]] |};
     nodes.RemoveType := nodes.OBJECT_TABLE;
     nodes.DropStmt_MissingOk := false |}.

(** DROP VIEW IF EXISTS v *)
Definition drop_view_v : nodes.DropStmt :=
  {| nodes.Objects := {| nodes.Items := [identifier_list ["v"]] |};
     nodes.RemoveType := nodes.OBJECT_other 1;
     nodes.DropStmt_MissingOk := true |}.

Definition drop_view_v_stmt : ast.Node :=
  ast.N_DropTableStmt {| ast.IfExists := true; ast.Tables := [] |}.

(** SELECT 1 *)
Definition select_1 : nodes.Node := nodes.Other "nodes.SelectStmt".

(** A reader that delivers [text], and a parser that answers [tree]. *)
Definition reader_of (text : string) : Reader :=
  {| ReadAll_contents := text; ReadAll_err := None |}.

Definition reader_failing (e : error) : Reader :=
  {| ReadAll_contents := ""; ReadAll_err := Some e |}.

Definition parser_of (tree : list nodes.Node) (text : string) : list nodes.Node * option error :=
  (tree, None).

(** ** Vocabulary of the further properties *)


(** The subtype a translated command gets, for the five subtypes that are
    translated. *)
Definition translated_subtype (st : nodes.AlterTableType) : option ast.AlterTableType :=
  match st with
  | nodes.AT_AddColumn => Some ast.AT_AddColumn
  | nodes.AT_AlterColumnType => Some ast.AT_AlterColumnType
  | nodes.AT_DropColumn => Some ast.AT_DropColumn
  | nodes.AT_DropNotNull => Some ast.AT_DropNotNull
  | nodes.AT_SetNotNull => Some ast.AT_SetNotNull
  | nodes.AT_other _ => None
  end.

(** Subtype, target column and guard of the command a list item is
    translated to; nothing for an item that is dropped. *)
Definition command_head (c : nodes.Node) : list (ast.AlterTableType * ptr string * bool) :=
  match c with
  | nodes.N_AlterTableCmd cmd =>
      match translated_subtype (nodes.Subtype cmd) with
      | Some st => [(st, nodes.Name cmd, nodes.MissingOk cmd)]
      | None => []
      end
  | _ => []
  end.

Definition head_of (c : ast.AlterTableCmd) : ast.AlterTableType * ptr string * bool :=
  (ast.Subtype c, ast.AlterTableCmd_Name c, ast.MissingOk c).

(** A translated command holds a column exactly when its subtype is one of
    the two that carry a definition. *)
Definition definition_matches_subtype (c : ast.AlterTableCmd) : Prop :=
  match ast.Subtype c with
  | ast.AT_AddColumn | ast.AT_AlterColumnType => ast.Def c <> None
  | _ => ast.Def c = None
  end.

(** A list item the loop of the ALTER TABLE case gets through: anything but
    a definition-carrying command whose payload is not a column definition
    with name and type set. *)
Definition command_runs (c : nodes.Node) : Prop :=
  forall cmd, c = nodes.N_AlterTableCmd cmd -> carries_definition cmd ->
    exists d, nodes.Def cmd = nodes.N_ColumnDef d /\ extract_column d <> None.

(** ALTER TABLE t ADD COLUMN id int PRIMARY KEY, ADD CONSTRAINT ...,
    DROP COLUMN IF EXISTS old *)
Definition drop_column_old : nodes.AlterTableCmd :=
  {| nodes.Subtype := nodes.AT_DropColumn;
     nodes.Name := Some "old";
     nodes.Def := nodes.Nil;
     nodes.MissingOk := true |}.

Definition alter_t_three_commands : nodes.AlterTableStmt :=
  {| nodes.Relation := Some relation_t;
     nodes.Cmds := {| nodes.Items := [nodes.N_AlterTableCmd add_column_id;
                                      nodes.N_AlterTableCmd add_constraint;
                                      nodes.N_AlterTableCmd drop_column_old] |} |}.

(** CREATE TABLE t (a int, <a column without a type>) *)
Definition column_untyped : nodes.ColumnDef :=
  {| nodes.Colname := Some "c";
     nodes.TypeName := None;
     nodes.Constraints := {| nodes.Items := [] |} |}.

Definition create_t_untyped : nodes.CreateStmt :=
  {| nodes.CreateStmt_Relation := Some relation_t;
     nodes.TableElts := {| nodes.Items := [nodes.N_ColumnDef column_a_int;
                                           nodes.N_ColumnDef column_untyped] |};
     nodes.IfNotExists := false |}.

(** The name list [a.*]: a string and a star node. *)
Definition name_a_star : nodes.ListT :=
  {| nodes.Items := [nodes.String "a"; nodes.Other "nodes.A_Star"] |}.

(** A parser that knows three texts: a CREATE TABLE, a DROP TABLE, and the
    two one after the other. *)
Definition parser_by_text (text : string) : list nodes.Node * option error :=
  if String.eqb text "CREATE" then ([raw (nodes.N_CreateStmt create_t)], None)
  else if String.eqb text "DROP" then ([raw (nodes.N_DropStmt drop_a_b)], None)
  else ([raw (nodes.N_CreateStmt create_t)] ++ [raw (nodes.N_DropStmt drop_a_b)], None).

(** * Properties *)

Arguments parseTableName : simpl never.

(** Runs the monadic steps whose outcome is known. *)
Ltac run := cbv beta iota delta [bind deref].

(** ** Name Resolver *)

Lemma stringSlice_items_Strings (parts : list string) :
  stringSlice_items (map nodes.String parts) = parts.
Proof.
  induction parts as [|p parts IH]; simpl; [reflexivity | now rewrite IH].
Qed.

(** C1.  A flat identifier list of one part resolves to a name only, of two
    parts to schema and name, of three parts to catalog, schema and name,
    the fields not listed keeping the zero value; a list of no part or of
    four parts and more fails with the error "invalid table name: "
    followed by the parts joined with a dot. *)
Theorem parseTableName_identifier_list :
  (forall a, parseTableName (identifier_list [a]) =
     (Some {| ast.Catalog := ""; ast.Schema := ""; ast.Name := a |}, None)) /\
  (forall a b, parseTableName (identifier_list [a; b]) =
     (Some {| ast.Catalog := ""; ast.Schema := a; ast.Name := b |}, None)) /\
  (forall a b c, parseTableName (identifier_list [a; b; c]) =
     (Some {| ast.Catalog := a; ast.Schema := b; ast.Name := c |}, None)) /\
  (forall parts, length parts = 0 \/ 4 <= length parts ->
     parseTableName (identifier_list parts) =
     (None, Some (New ("invalid table name: " ++ String.concat "." parts)))).
Proof.
  repeat split; try reflexivity.
  intros parts Hlen.
  unfold identifier_list, parseTableName, join, stringSlice; simpl nodes.Items.
  rewrite stringSlice_items_Strings.
  destruct parts as [|a [|b [|c [|d rest]]]]; simpl in Hlen; try lia; reflexivity.
Qed.

Lemma parseTableName_identifier_list_witness :
  (length ["a"; "b"; "c"; "d"] = 0 \/ 4 <= length ["a"; "b"; "c"; "d"]) /\
  parseTableName (identifier_list ["a"; "b"; "c"; "d"]) =
  (None, Some (New "invalid table name: a.b.c.d")).
Proof.
  split.
  - right; simpl; lia.
  - apply (proj2 (proj2 (proj2 parseTableName_identifier_list)) ["a"; "b"; "c"; "d"]).
    right; simpl; lia.
Defined.

Lemma parseTableName_RangeVar (r : nodes.RangeVar) :
  parseTableName (nodes.N_RangeVar r) =
  (Some {| ast.Catalog := or_zero (nodes.Catalogname r);
           ast.Schema := or_zero (nodes.Schemaname r);
           ast.Name := or_zero (nodes.Relname r) |}, None).
Proof.
  destruct r as [[c|] [s|] [n|]]; reflexivity.
Qed.

(** C8, as amended.  Resolving a relation reference never fails; each field
    that is present is copied as it is, and each absent field is left at
    the zero value of a string, the empty string. *)
Theorem parseTableName_relation_reference (r : nodes.RangeVar) :
  exists name,
    parseTableName (nodes.N_RangeVar r) = (Some name, None) /\
    (forall c, nodes.Catalogname r = Some c -> ast.Catalog name = c) /\
    (forall s, nodes.Schemaname r = Some s -> ast.Schema name = s) /\
    (forall n, nodes.Relname r = Some n -> ast.Name name = n) /\
    (nodes.Catalogname r = None -> ast.Catalog name = "") /\
    (nodes.Schemaname r = None -> ast.Schema name = "") /\
    (nodes.Relname r = None -> ast.Name name = "").
Proof.
  eexists; split; [apply parseTableName_RangeVar|].
  simpl; repeat split; intros; match goal with H : _ = _ |- _ => rewrite H end; reflexivity.
Qed.

Lemma parseTableName_relation_reference_witness :
  nodes.Schemaname relation_empty_schema = Some "" /\
  nodes.Catalogname relation_empty_schema = None /\
  exists name,
    parseTableName (nodes.N_RangeVar relation_empty_schema) = (Some name, None) /\
    ast.Schema name = "" /\ ast.Catalog name = "".
Proof.
  split; [reflexivity|]. split; [reflexivity|].
  destruct (parseTableName_relation_reference relation_empty_schema)
    as (name & Hres & _ & Hs & _ & Hc & _).
  exists name. split; [exact Hres|]. split.
  - apply Hs; reflexivity.
  - apply Hc; reflexivity.
Defined.

(** C8, as stated, fails: a relation reference without a schema and one
    whose schema is the empty string are different inputs and resolve to the
    same table name, so an absent field cannot be told from an empty one. *)
Lemma parseTableName_absent_is_empty :
  relation_absent_schema <> relation_empty_schema /\
  parseTableName (nodes.N_RangeVar relation_absent_schema) =
  parseTableName (nodes.N_RangeVar relation_empty_schema).
Proof.
  split; [discriminate | reflexivity].
Qed.

(** ** Column nullability *)

Lemma isNotNull_constraint_true (c : nodes.Node) :
  isNotNull_constraint c = true <->
  exists k, c = nodes.N_Constraint k /\
    (nodes.Contype k = nodes.CONSTR_NOTNULL \/ nodes.Contype k = nodes.CONSTR_PRIMARY).
Proof.
  split.
  - destruct c; simpl; try discriminate.
    intros H. exists c. split; [reflexivity|].
    destruct (nodes.Contype c); try discriminate; auto.
  - intros (k & -> & [H|H]); simpl; rewrite H; reflexivity.
Qed.

(** C2.  [isNotNull] holds of a column-definition node exactly when its
    constraint list contains a NOT NULL or a PRIMARY KEY constraint, and
    the column built for a CREATE TABLE element, for an ADD COLUMN command
    and for an ALTER COLUMN TYPE command each carry that same value. *)
Theorem isNotNull_one_predicate (d : nodes.ColumnDef) (colname : string)
    (tn : nodes.TypeNameT) (cmd : nodes.AlterTableCmd) :
  nodes.Colname d = Some colname ->
  nodes.TypeName d = Some tn ->
  nodes.Def cmd = nodes.N_ColumnDef d ->
  (isNotNull d = true <->
     exists k, In (nodes.N_Constraint k) (nodes.Items (nodes.Constraints d)) /\
       (nodes.Contype k = nodes.CONSTR_NOTNULL \/ nodes.Contype k = nodes.CONSTR_PRIMARY)) /\
  (exists col, translate_elt (nodes.N_ColumnDef d) [] = Returns [Some col] /\
     ast.IsNotNull col = isNotNull d) /\
  (nodes.Subtype cmd = nodes.AT_AddColumn ->
     exists item col, translate_cmd (nodes.N_AlterTableCmd cmd) [] = Returns [ast.N_AlterTableCmd item] /\
       ast.Subtype item = ast.AT_AddColumn /\
       ast.Def item = Some col /\ ast.IsNotNull col = isNotNull d) /\
  (nodes.Subtype cmd = nodes.AT_AlterColumnType ->
     exists item col, translate_cmd (nodes.N_AlterTableCmd cmd) [] = Returns [ast.N_AlterTableCmd item] /\
       ast.Subtype item = ast.AT_AlterColumnType /\
       ast.Def item = Some col /\ ast.IsNotNull col = isNotNull d).
Proof.
  intros Hc Ht Hd. split; [|split; [|split]].
  - unfold isNotNull. rewrite existsb_exists. split.
    + intros (c & Hin & Hk). apply isNotNull_constraint_true in Hk.
      destruct Hk as (k & -> & Hk). exists k; auto.
    + intros (k & Hin & Hk). exists (nodes.N_Constraint k). split; [exact Hin|].
      apply isNotNull_constraint_true. exists k; auto.
  - unfold translate_elt. rewrite Hc, Ht. simpl. eexists; split; reflexivity.
  - intros Hs. unfold translate_cmd. rewrite Hs, Hd. simpl. rewrite Hc, Ht. simpl.
    do 2 eexists; repeat split; reflexivity.
  - intros Hs. unfold translate_cmd. rewrite Hs, Hd. simpl. rewrite Hc, Ht. simpl.
    do 2 eexists; repeat split; reflexivity.
Qed.

Lemma isNotNull_one_predicate_witness :
  isNotNull column_id_primary = true /\
  exists item col,
    translate_cmd (nodes.N_AlterTableCmd add_column_id) [] = Returns [ast.N_AlterTableCmd item] /\
    ast.Subtype item = ast.AT_AddColumn /\
    ast.Def item = Some col /\ ast.IsNotNull col = isNotNull column_id_primary.
Proof.
  destruct (@isNotNull_one_predicate column_id_primary "id"
              {| nodes.Names := {| nodes.Items := map nodes.String ["pg_catalog"; "int4"] |} |}
              add_column_id eq_refl eq_refl eq_refl) as (Hiff & _ & Hadd & _).
  split.
  - apply Hiff. exists {| nodes.Contype := nodes.CONSTR_PRIMARY |}.
    split; [left; reflexivity | right; reflexivity].
  - apply Hadd. reflexivity.
Defined.

(** ** Statement translator: the loops *)

Lemma translate_cmds_app (pre post : list nodes.Node) (acc : list ast.Node) :
  translate_cmds (pre ++ post) acc =
  (acc' <- translate_cmds pre acc ;; translate_cmds post acc').
Proof.
  revert acc. induction pre as [|c pre IH]; intros acc; simpl; [reflexivity|].
  destruct (translate_cmd c acc) as [acc'|p]; simpl; [apply IH | reflexivity].
Qed.

Lemma translate_cmd_unsupported (c : nodes.Node) (acc : list ast.Node) :
  unsupported_command c -> translate_cmd c acc = Returns acc.
Proof.
  intros (cmd & -> & H1 & H2 & H3 & H4 & H5). unfold translate_cmd.
  destruct (nodes.Subtype cmd); try reflexivity; congruence.
Qed.

Lemma translate_cmds_unsupported (cmds : list nodes.Node) (acc : list ast.Node) :
  Forall unsupported_command cmds -> translate_cmds cmds acc = Returns acc.
Proof.
  induction 1 as [|c cmds Hc _ IH]; simpl; [reflexivity|].
  rewrite (translate_cmd_unsupported acc Hc). simpl. exact IH.
Qed.

Lemma translate_cmd_bad_payload (cmd : nodes.AlterTableCmd) (acc : list ast.Node) :
  carries_definition cmd -> ~ is_ColumnDef (nodes.Def cmd) ->
  translate_cmd (nodes.N_AlterTableCmd cmd) acc = Panics interface_conversion.
Proof.
  intros Hs Hd. unfold translate_cmd.
  assert (Ha : assert_ColumnDef (nodes.Def cmd) = Panics interface_conversion).
  { destruct (nodes.Def cmd); try reflexivity. exfalso; apply Hd; eexists; reflexivity. }
  destruct Hs as [Hs|Hs]; rewrite Hs, Ha; reflexivity.
Qed.

Lemma translate_cmds_bad_payload (cmds : list nodes.Node) (cmd : nodes.AlterTableCmd) :
  In (nodes.N_AlterTableCmd cmd) cmds ->
  carries_definition cmd -> ~ is_ColumnDef (nodes.Def cmd) ->
  forall acc, exists p, translate_cmds cmds acc = Panics p.
Proof.
  intros Hin Hs Hd. induction cmds as [|c cmds IH]; [contradiction|].
  intros acc. simpl. destruct Hin as [->|Hin].
  - rewrite (translate_cmd_bad_payload acc Hs Hd). simpl. eauto.
  - destruct (translate_cmd c acc) as [acc'|p]; simpl; eauto.
Qed.

Lemma bind_unsupported_step (pre post : list nodes.Node) (c : nodes.Node) :
  unsupported_command c ->
  (acc <- translate_cmds pre [] ;;
   acc' <- translate_cmd c acc ;; translate_cmds post acc') =
  (acc <- translate_cmds pre [] ;; translate_cmds post acc).
Proof.
  intros Hc. destruct (translate_cmds pre []) as [acc|p]; simpl; [|reflexivity].
  now rewrite (translate_cmd_unsupported acc Hc).
Qed.

Lemma translate_cmd_shaped (cmd : nodes.Node) (acc : list ast.Node) :
  payloads_shaped [cmd] -> translate_cmd cmd acc <> Panics interface_conversion.
Proof.
  intros Hsh. destruct cmd as [| | | | | | | |c| | | | |]; try discriminate.
  unfold translate_cmd.
  destruct (nodes.Subtype c) eqn:Hs; try discriminate.
  - destruct (Hsh c (or_introl eq_refl) (or_introl Hs)) as (d & ->). simpl.
    destruct (nodes.Colname d); [|discriminate]. simpl.
    destruct (nodes.TypeName d); discriminate.
  - destruct (Hsh c (or_introl eq_refl) (or_intror Hs)) as (d & ->). simpl.
    destruct (nodes.Colname d); [|discriminate]. simpl.
    destruct (nodes.TypeName d); discriminate.
Qed.

Lemma translate_cmds_shaped (cmds : list nodes.Node) :
  payloads_shaped cmds ->
  forall acc, translate_cmds cmds acc <> Panics interface_conversion.
Proof.
  induction cmds as [|c cmds IH]; intros Hsh acc; simpl; [discriminate|].
  assert (Hc : translate_cmd c acc <> Panics interface_conversion).
  { apply translate_cmd_shaped. intros cmd [->|[]] Hs. apply Hsh; [left; reflexivity | exact Hs]. }
  destruct (translate_cmd c acc) as [acc'|p]; simpl.
  - apply IH. intros cmd Hin. apply Hsh. right; exact Hin.
  - exact Hc.
Qed.

Lemma translate_elts_columns (elts : list nodes.Node) (acc : list (ptr ast.ColumnDef)) :
  Forall (fun d => extract_column d <> None) (column_definitions elts) ->
  translate_elts elts acc = Returns (acc ++ map extract_column (column_definitions elts)).
Proof.
  revert acc. induction elts as [|e elts IH]; intros acc Hwf; simpl.
  - now rewrite app_nil_r.
  - unfold column_definitions in Hwf; simpl in Hwf.
    destruct e; simpl in *; try (apply IH; exact Hwf).
    inversion Hwf as [|? ? Hd Hrest]; subst.
    unfold extract_column in *.
    destruct (nodes.Colname d) as [colname|]; [|congruence].
    destruct (nodes.TypeName d) as [tn|]; [|congruence].
    simpl. rewrite (IH _ Hrest). rewrite <- app_assoc. reflexivity.
Qed.

Lemma translate_elts_returns (elts : list nodes.Node) (acc cols : list (ptr ast.ColumnDef)) :
  translate_elts elts acc = Returns cols ->
  Forall (fun d => extract_column d <> None) (column_definitions elts).
Proof.
  revert acc. induction elts as [|e elts IH]; intros acc; simpl; [constructor|].
  destruct e; simpl; try apply IH.
  intros H. unfold column_definitions; simpl.
  destruct (nodes.Colname d) as [colname|] eqn:Hc; [|discriminate H].
  destruct (nodes.TypeName d) as [tn|] eqn:Ht; [|discriminate H].
  simpl in H. constructor; [|exact (IH _ H)].
  unfold extract_column. rewrite Hc, Ht. discriminate.
Qed.

Lemma translate_objects_returns (objs : list nodes.Node) (acc tables : list (ptr ast.TableName)) :
  translate_objects nodes.OBJECT_TABLE objs acc = inr tables -> Forall resolves objs.
Proof.
  revert acc. induction objs as [|obj objs IH]; intros acc; simpl; [constructor|].
  destruct (parseTableName obj) as [name [e|]] eqn:Hobj; [discriminate|].
  intros H. constructor; [unfold resolves; now rewrite Hobj | exact (IH _ H)].
Qed.

Lemma translate_objects_tables (objs : list nodes.Node) (acc : list (ptr ast.TableName)) :
  Forall resolves objs ->
  translate_objects nodes.OBJECT_TABLE objs acc =
  inr (acc ++ map (fun obj => fst (parseTableName obj)) objs).
Proof.
  intros H. revert acc. induction H as [|obj objs Hobj _ IH]; intros acc; simpl.
  - now rewrite app_nil_r.
  - unfold resolves in Hobj. destruct (parseTableName obj) as [name err]; simpl in *.
    subst err. rewrite IH, <- app_assoc. reflexivity.
Qed.

Lemma translate_objects_other (code : nat) (objs : list nodes.Node)
    (acc : list (ptr ast.TableName)) :
  translate_objects (nodes.OBJECT_other code) objs acc = inr acc.
Proof.
  induction objs as [|obj objs IH]; simpl; [reflexivity | exact IH].
Qed.

Lemma translate_DropStmt_not_table (n : nodes.DropStmt) :
  nodes.RemoveType n <> nodes.OBJECT_TABLE ->
  translate (nodes.N_DropStmt n) =
  Returns (Some (ast.N_DropTableStmt
             {| ast.IfExists := nodes.DropStmt_MissingOk n; ast.Tables := [] |}), None).
Proof.
  intros Hk. unfold translate.
  destruct (nodes.RemoveType n) as [|code]; [congruence|].
  rewrite translate_objects_other. reflexivity.
Qed.

(** ** Document translator: the loop *)

Lemma Parse_loop_translated (ss : list nodes.Node) (results : list (option ast.Node))
    (rest : list nodes.Node) (stmts : list ast.Statement) :
  Forall2 (fun s o => translate s = Returns (o, None)) ss results ->
  Parse_loop (map raw ss ++ rest) stmts = Parse_loop rest (stmts ++ kept results).
Proof.
  intros H. revert stmts. induction H as [|s o ss results Hs _ IH]; intros stmts; simpl.
  - now rewrite app_nil_r.
  - rewrite Hs. simpl. destruct o as [n|].
    + rewrite IH. unfold kept; simpl. now rewrite <- app_assoc.
    + rewrite IH. reflexivity.
Qed.

Lemma Parse_loop_error_no_statements (statements : list nodes.Node)
    (stmts out : list ast.Statement) (e : error) :
  Parse_loop statements stmts = Returns (out, Some e) -> out = [].
Proof.
  revert stmts. induction statements as [|s statements IH]; intros stmts; simpl.
  - discriminate.
  - destruct s; try (intros H; injection H; auto).
    destruct (translate (nodes.Stmt s)) as [[[n|] [err|]]|p]; simpl;
      try (intros H; injection H; auto); try discriminate; apply IH.
Qed.

Lemma parseTableName_resolved (obj : nodes.Node) :
  resolves obj -> exists name, parseTableName obj = (Some name, None).
Proof.
  unfold resolves, parseTableName. destruct obj; simpl; try discriminate.
  - destruct (stringSlice l) as [|a [|b [|c [|d rest]]]]; simpl; try discriminate; eauto.
  - eauto.
Qed.

Lemma Parse_of_tree (pg_Parse : string -> list nodes.Node * option error) (r : Reader)
    (tree : list nodes.Node) :
  ReadAll_err r = None -> pg_Parse (ReadAll_contents r) = (tree, None) ->
  Parse pg_Parse r = Parse_loop tree [].
Proof.
  intros Hr Hp. unfold Parse. rewrite Hr, Hp. reflexivity.
Qed.

(** ** The statements of the specification *)

(** C3.  A node of a kind other than ALTER TABLE, CREATE TABLE and DROP is
    translated to (nil, nil); a document of a supported statement followed
    by an unsupported one yields the one statement of the supported node
    and no error. *)
Theorem translate_unsupported_skipped
    (pg_Parse : string -> list nodes.Node * option error) (r : Reader) :
  (forall node, supported node = false -> translate node = Returns (None, None)) /\
  (forall s u n,
     ReadAll_err r = None ->
     pg_Parse (ReadAll_contents r) = ([raw s; raw u], None) ->
     supported s = true -> translate s = Returns (Some n, None) ->
     supported u = false ->
     Parse pg_Parse r = Returns ([statement_of n], None)).
Proof.
  assert (Hskip : forall node, supported node = false -> translate node = Returns (None, None)).
  { intros node H. destruct node; simpl in H; try discriminate; reflexivity. }
  split; [exact Hskip|].
  intros s u n Hr Hp _ Hs Hu.
  rewrite (Parse_of_tree pg_Parse r Hr Hp).
  change [raw s; raw u] with (map raw [s; u] ++ []).
  rewrite (@Parse_loop_translated [s; u] [Some n; None]).
  - reflexivity.
  - repeat constructor; [exact Hs | apply Hskip; exact Hu].
Qed.

(** C4.  [Parse] returns the read error or the parser's error with no
    statement; otherwise it translates the wrapped statements in order and
    keeps the non-nil results in that order; the first translation that
    returns an error ends the call with that error and no statement; and
    whenever [Parse] returns an error its statement sequence is nil. *)
Theorem Parse_all_or_nothing
    (pg_Parse : string -> list nodes.Node * option error) (r : Reader) :
  (forall e, ReadAll_err r = Some e -> Parse pg_Parse r = Returns ([], Some e)) /\
  (forall tree e, ReadAll_err r = None ->
     pg_Parse (ReadAll_contents r) = (tree, Some e) ->
     Parse pg_Parse r = Returns ([], Some e)) /\
  (forall ss results, ReadAll_err r = None ->
     pg_Parse (ReadAll_contents r) = (map raw ss, None) ->
     Forall2 (fun s o => translate s = Returns (o, None)) ss results ->
     Parse pg_Parse r = Returns (kept results, None)) /\
  (forall pre results s post o e, ReadAll_err r = None ->
     pg_Parse (ReadAll_contents r) = (map raw pre ++ raw s :: post, None) ->
     Forall2 (fun s o => translate s = Returns (o, None)) pre results ->
     translate s = Returns (o, Some e) ->
     Parse pg_Parse r = Returns ([], Some e)) /\
  (forall out e, Parse pg_Parse r = Returns (out, Some e) -> out = []).
Proof.
  repeat split.
  - intros e Hr. unfold Parse. rewrite Hr. reflexivity.
  - intros tree e Hr Hp. unfold Parse. rewrite Hr, Hp. reflexivity.
  - intros ss results Hr Hp Hall.
    rewrite (Parse_of_tree pg_Parse r Hr Hp).
    rewrite <- (app_nil_r (map raw ss)).
    rewrite (Parse_loop_translated [] [] Hall). reflexivity.
  - intros pre results s post o e Hr Hp Hall Hs.
    rewrite (Parse_of_tree pg_Parse r Hr Hp).
    rewrite (Parse_loop_translated (raw s :: post) [] Hall).
    simpl. rewrite Hs. simpl. destruct o; reflexivity.
  - intros out e. unfold Parse.
    destruct (ReadAll_err r) as [err|].
    + intros H; injection H; auto.
    + destruct (pg_Parse (ReadAll_contents r)) as [tree [err|]].
      * intros H; injection H; auto.
      * apply Parse_loop_error_no_statements.
Qed.

(** C5.  A CREATE TABLE node whose relation and column names and types are
    set is translated to a CreateTableStmt with the name the resolver gives
    for its relation, its IF NOT EXISTS flag, and one column for each
    column-definition element, in order; the other elements add nothing and
    raise nothing.  No other CREATE TABLE node is translated at all. *)
Theorem translate_CreateStmt (n : nodes.CreateStmt) :
  (forall rel,
     nodes.CreateStmt_Relation n = Some rel ->
     Forall (fun d => extract_column d <> None)
            (column_definitions (nodes.Items (nodes.TableElts n))) ->
     translate (nodes.N_CreateStmt n) =
     Returns (Some (ast.N_CreateTableStmt
                {| ast.CreateTableStmt_Name := fst (parseTableName (nodes.N_RangeVar rel));
                   ast.IfNotExists := nodes.IfNotExists n;
                   ast.Cols := map extract_column
                                 (column_definitions (nodes.Items (nodes.TableElts n))) |}),
              None)) /\
  (forall res,
     translate (nodes.N_CreateStmt n) = Returns res ->
     (exists rel, nodes.CreateStmt_Relation n = Some rel) /\
     Forall (fun d => extract_column d <> None)
            (column_definitions (nodes.Items (nodes.TableElts n)))).
Proof.
  split.
  - intros rel Hrel Hcols. unfold translate. rewrite Hrel. run.
    rewrite parseTableName_RangeVar.
    rewrite (translate_elts_columns _ [] Hcols). simpl. reflexivity.
  - intros res. unfold translate.
    destruct (nodes.CreateStmt_Relation n) as [rel|]; [|discriminate]. run.
    rewrite parseTableName_RangeVar.
    destruct (translate_elts (nodes.Items (nodes.TableElts n)) []) as [cols|p] eqn:Hcols;
      [|discriminate].
    intros _. split; [eauto | exact (translate_elts_returns _ _ Hcols)].
Qed.

(** C6.  An ALTER TABLE command of a subtype other than the five translated
    ones leaves no trace: the statement translates as it does without the
    command; and a statement with only such commands translates to an
    AlterTableStmt with an empty command list. *)
Theorem translate_AlterTableStmt_unsupported (n : nodes.AlterTableStmt) :
  (forall pre c post,
     nodes.Items (nodes.Cmds n) = pre ++ c :: post ->
     unsupported_command c ->
     translate (nodes.N_AlterTableStmt n) =
     translate (nodes.N_AlterTableStmt
                  {| nodes.Relation := nodes.Relation n;
                     nodes.Cmds := {| nodes.Items := pre ++ post |} |})) /\
  (forall rel,
     nodes.Relation n = Some rel ->
     Forall unsupported_command (nodes.Items (nodes.Cmds n)) ->
     translate (nodes.N_AlterTableStmt n) =
     Returns (Some (ast.N_AlterTableStmt
                {| ast.Table := fst (parseTableName (nodes.N_RangeVar rel));
                   ast.Cmds := Some {| ast.Items := [] |} |}),
              None)).
Proof.
  split.
  - intros pre c post Hitems Hc. unfold translate.
    cbn [nodes.Relation nodes.Cmds nodes.Items]. rewrite Hitems.
    destruct (nodes.Relation n) as [rel|]; [|reflexivity].
    rewrite !translate_cmds_app. cbn [translate_cmds].
    rewrite (bind_unsupported_step pre post Hc). reflexivity.
  - intros rel Hrel Hall. unfold translate. rewrite Hrel. run.
    rewrite parseTableName_RangeVar.
    rewrite (translate_cmds_unsupported [] Hall). reflexivity.
Qed.

(** C7.  A DROP node whose table objects all resolve is translated to a
    DropTableStmt with the IF EXISTS flag of the node and, in order, the
    resolved name of each object when the node removes tables, and of none
    when it removes objects of another kind.  No DropTableStmt is produced
    for a node with a table object that does not resolve. *)
Theorem translate_DropStmt_tables (n : nodes.DropStmt) :
  (Forall resolves (table_objects n) ->
     translate (nodes.N_DropStmt n) =
     Returns (Some (ast.N_DropTableStmt
                {| ast.IfExists := nodes.DropStmt_MissingOk n;
                   ast.Tables := map (fun obj => fst (parseTableName obj)) (table_objects n) |}),
              None) /\
     Forall (fun obj => exists name, parseTableName obj = (Some name, None)) (table_objects n)) /\
  (forall s, translate (nodes.N_DropStmt n) = Returns (Some s, None) ->
     Forall resolves (table_objects n)).
Proof.
  split.
  - intros Hall. split.
    + unfold translate, table_objects in *.
      destruct (nodes.RemoveType n) as [|code].
      * rewrite (translate_objects_tables [] Hall). reflexivity.
      * rewrite translate_objects_other. reflexivity.
    + revert Hall. apply Forall_impl. apply parseTableName_resolved.
  - intros s. unfold translate, table_objects.
    destruct (nodes.RemoveType n) as [|code]; [|constructor].
    destruct (translate_objects nodes.OBJECT_TABLE (nodes.Items (nodes.Objects n)) [])
      as [e|tables] eqn:Hobjs; [discriminate|].
    intros _. exact (translate_objects_returns _ _ Hobjs).
Qed.

(** C9.  The type assertion on the payload of an ADD COLUMN or ALTER COLUMN
    TYPE command succeeds on a column definition, so a statement whose
    payloads have that shape never stops on the assertion; a statement with
    one such command whose payload has another shape never returns, neither
    a statement nor an error: it panics, and on the failed assertion itself
    when the relation is set and the commands before it ran. *)
Theorem translate_AlterTableStmt_payload (n : nodes.AlterTableStmt) :
  (forall d, assert_ColumnDef (nodes.N_ColumnDef d) = Returns d) /\
  (payloads_shaped (nodes.Items (nodes.Cmds n)) ->
     translate (nodes.N_AlterTableStmt n) <> Panics interface_conversion) /\
  (forall cmd,
     In (nodes.N_AlterTableCmd cmd) (nodes.Items (nodes.Cmds n)) ->
     carries_definition cmd -> ~ is_ColumnDef (nodes.Def cmd) ->
     exists p, translate (nodes.N_AlterTableStmt n) = Panics p) /\
  (forall rel pre acc cmd post,
     nodes.Relation n = Some rel ->
     nodes.Items (nodes.Cmds n) = pre ++ nodes.N_AlterTableCmd cmd :: post ->
     translate_cmds pre [] = Returns acc ->
     carries_definition cmd -> ~ is_ColumnDef (nodes.Def cmd) ->
     translate (nodes.N_AlterTableStmt n) = Panics interface_conversion).
Proof.
  split; [reflexivity|]. split; [|split].
  - intros Hsh. unfold translate.
    destruct (nodes.Relation n) as [rel|]; [|discriminate]. run.
    rewrite parseTableName_RangeVar.
    pose proof (translate_cmds_shaped Hsh []) as Hno.
    destruct (translate_cmds (nodes.Items (nodes.Cmds n)) []) as [items|p]; simpl;
      [discriminate | intros H; apply Hno; congruence].
  - intros cmd Hin Hs Hd. unfold translate.
    destruct (nodes.Relation n) as [rel|]; [|simpl; eauto]. run.
    rewrite parseTableName_RangeVar.
    destruct (translate_cmds_bad_payload _ Hin Hs Hd []) as (p & ->). simpl. eauto.
  - intros rel pre acc cmd post Hrel Hitems Hpre Hs Hd. unfold translate.
    rewrite Hrel. run. rewrite parseTableName_RangeVar.
    rewrite Hitems, translate_cmds_app, Hpre. cbn [bind translate_cmds].
    rewrite (translate_cmd_bad_payload acc Hs Hd). reflexivity.
Qed.

(** C10.  A DROP node that removes objects of a kind other than table is
    translated to a non-nil DropTableStmt with the node's IF EXISTS flag and
    no table, and that statement stands in the output of [Parse] at the
    place of the node. *)
Theorem translate_DropStmt_other_kind (n : nodes.DropStmt)
    (pg_Parse : string -> list nodes.Node * option error) (r : Reader) :
  nodes.RemoveType n <> nodes.OBJECT_TABLE ->
  let drop := ast.N_DropTableStmt
                {| ast.IfExists := nodes.DropStmt_MissingOk n; ast.Tables := [] |} in
  translate (nodes.N_DropStmt n) = Returns (Some drop, None) /\
  (forall pre before post after,
     ReadAll_err r = None ->
     pg_Parse (ReadAll_contents r) =
       (map raw pre ++ raw (nodes.N_DropStmt n) :: map raw post, None) ->
     Forall2 (fun s o => translate s = Returns (o, None)) pre before ->
     Forall2 (fun s o => translate s = Returns (o, None)) post after ->
     Parse pg_Parse r = Returns (kept before ++ statement_of drop :: kept after, None)).
Proof.
  intros Hk drop.
  pose proof (translate_DropStmt_not_table n Hk) as Hd. fold drop in Hd.
  split; [exact Hd|].
  intros pre before post after Hr Hp Hpre Hpost.
  rewrite (Parse_of_tree pg_Parse r Hr Hp).
  rewrite (Parse_loop_translated _ [] Hpre).
  change (raw (nodes.N_DropStmt n) :: map raw post)
    with (map raw [nodes.N_DropStmt n] ++ map raw post).
  rewrite (@Parse_loop_translated [nodes.N_DropStmt n] [Some drop]);
    [|repeat constructor; exact Hd].
  rewrite <- (app_nil_r (map raw post)).
  rewrite (Parse_loop_translated [] _ Hpost).
  cbn [Parse_loop kept flat_map app]. rewrite <- !app_assoc. reflexivity.
Qed.

(** ** The statements at the sample parse trees *)

Lemma translate_unsupported_skipped_witness :
  supported (nodes.N_CreateStmt create_t) = true /\
  supported select_1 = false /\
  translate (nodes.N_CreateStmt create_t) = Returns (Some create_t_stmt, None) /\
  Parse (parser_of [raw (nodes.N_CreateStmt create_t); raw select_1])
        (reader_of "CREATE TABLE IF NOT EXISTS t (a int, CHECK (a > 0), b text NOT NULL); SELECT 1;") =
  Returns ([statement_of create_t_stmt], None).
Proof.
  split; [reflexivity|]. split; [reflexivity|]. split; [reflexivity|].
  apply (proj2 (translate_unsupported_skipped
                  (parser_of [raw (nodes.N_CreateStmt create_t); raw select_1])
                  (reader_of "CREATE TABLE IF NOT EXISTS t (a int, CHECK (a > 0), b text NOT NULL); SELECT 1;"))
               (nodes.N_CreateStmt create_t) select_1 create_t_stmt);
    reflexivity.
Defined.

Lemma Parse_all_or_nothing_witness :
  Parse (parser_of []) (reader_failing (New "unexpected EOF")) =
    Returns ([], Some (New "unexpected EOF")) /\
  Parse (parser_of (map raw [nodes.N_CreateStmt create_t; select_1; nodes.N_DropStmt drop_a_b]))
        (reader_of "three statements") =
    Returns ([statement_of create_t_stmt; statement_of drop_a_b_stmt], None) /\
  Parse (parser_of (map raw [nodes.N_CreateStmt create_t] ++
                    raw (nodes.N_DropStmt drop_four_parts) ::
                    [raw (nodes.N_DropStmt drop_a_b)]))
        (reader_of "the second statement is DROP TABLE a.b.c.d") =
    Returns ([], Some (New "invalid table name: a.b.c.d")).
Proof.
  split; [|split].
  - apply (proj1 (Parse_all_or_nothing (parser_of []) (reader_failing (New "unexpected EOF")))).
    reflexivity.
  - apply (proj1 (proj2 (proj2 (Parse_all_or_nothing
             (parser_of (map raw [nodes.N_CreateStmt create_t; select_1; nodes.N_DropStmt drop_a_b]))
             (reader_of "three statements"))))
             [nodes.N_CreateStmt create_t; select_1; nodes.N_DropStmt drop_a_b]
             [Some create_t_stmt; None; Some drop_a_b_stmt]);
      [reflexivity | reflexivity | repeat constructor].
  - apply (proj1 (proj2 (proj2 (proj2 (Parse_all_or_nothing
             (parser_of (map raw [nodes.N_CreateStmt create_t] ++
                         raw (nodes.N_DropStmt drop_four_parts) ::
                         [raw (nodes.N_DropStmt drop_a_b)]))
             (reader_of "the second statement is DROP TABLE a.b.c.d")))))
             [nodes.N_CreateStmt create_t] [Some create_t_stmt]
             (nodes.N_DropStmt drop_four_parts) [raw (nodes.N_DropStmt drop_a_b)] None);
      [reflexivity | reflexivity | repeat constructor | reflexivity].
Defined.

Lemma translate_CreateStmt_witness :
  nodes.CreateStmt_Relation create_t = Some relation_t /\
  Forall (fun d => extract_column d <> None)
         (column_definitions (nodes.Items (nodes.TableElts create_t))) /\
  translate (nodes.N_CreateStmt create_t) = Returns (Some create_t_stmt, None).
Proof.
  assert (H : Forall (fun d => extract_column d <> None)
                     (column_definitions (nodes.Items (nodes.TableElts create_t)))).
  { repeat constructor; discriminate. }
  split; [reflexivity|]. split; [exact H|].
  exact (proj1 (translate_CreateStmt create_t) relation_t eq_refl H).
Defined.

Lemma translate_AlterTableStmt_unsupported_witness :
  unsupported_command (nodes.N_AlterTableCmd add_constraint) /\
  translate (nodes.N_AlterTableStmt alter_t_add_constraint) =
    Returns (Some alter_t_no_command, None) /\
  translate (nodes.N_AlterTableStmt alter_t_misshaped) =
  translate (nodes.N_AlterTableStmt
               {| nodes.Relation := Some relation_t;
                  nodes.Cmds := {| nodes.Items := [nodes.N_AlterTableCmd add_column_misshaped] |} |}).
Proof.
  assert (H : unsupported_command (nodes.N_AlterTableCmd add_constraint)).
  { exists add_constraint. repeat split; discriminate. }
  split; [exact H|]. split.
  - apply (proj2 (translate_AlterTableStmt_unsupported alter_t_add_constraint) relation_t);
      [reflexivity | repeat constructor; exact H].
  - apply (proj1 (translate_AlterTableStmt_unsupported alter_t_misshaped)
             [] (nodes.N_AlterTableCmd add_constraint) [nodes.N_AlterTableCmd add_column_misshaped]);
      [reflexivity | exact H].
Defined.

Lemma translate_DropStmt_tables_witness :
  Forall resolves (table_objects drop_a_b) /\
  translate (nodes.N_DropStmt drop_a_b) = Returns (Some drop_a_b_stmt, None).
Proof.
  assert (H : Forall resolves (table_objects drop_a_b)).
  { repeat constructor. }
  split; [exact H|].
  exact (proj1 (proj1 (translate_DropStmt_tables drop_a_b) H)).
Defined.

Lemma translate_AlterTableStmt_payload_witness :
  carries_definition add_column_misshaped /\
  ~ is_ColumnDef (nodes.Def add_column_misshaped) /\
  payloads_shaped (nodes.Items (nodes.Cmds alter_t_add_id)) /\
  translate (nodes.N_AlterTableStmt alter_t_misshaped) = Panics interface_conversion /\
  translate (nodes.N_AlterTableStmt alter_t_add_id) <> Panics interface_conversion.
Proof.
  assert (Hs : carries_definition add_column_misshaped) by (left; reflexivity).
  assert (Hd : ~ is_ColumnDef (nodes.Def add_column_misshaped)).
  { intros (d & H); discriminate H. }
  assert (Hsh : payloads_shaped (nodes.Items (nodes.Cmds alter_t_add_id))).
  { intros cmd [H|[]] _. injection H as <-. exists column_id_primary; reflexivity. }
  split; [exact Hs|]. split; [exact Hd|]. split; [exact Hsh|]. split.
  - apply (proj2 (proj2 (proj2 (translate_AlterTableStmt_payload alter_t_misshaped)))
             relation_t [nodes.N_AlterTableCmd add_constraint] [] add_column_misshaped []);
      [reflexivity | reflexivity | reflexivity | exact Hs | exact Hd].
  - apply (proj1 (proj2 (translate_AlterTableStmt_payload alter_t_add_id))). exact Hsh.
Defined.

Lemma translate_DropStmt_other_kind_witness :
  nodes.RemoveType drop_view_v <> nodes.OBJECT_TABLE /\
  translate (nodes.N_DropStmt drop_view_v) = Returns (Some drop_view_v_stmt, None) /\
  Parse (parser_of (map raw [nodes.N_CreateStmt create_t] ++
                    raw (nodes.N_DropStmt drop_view_v) :: map raw [select_1]))
        (reader_of "CREATE TABLE ...; DROP VIEW IF EXISTS v; SELECT 1;") =
  Returns ([statement_of create_t_stmt; statement_of drop_view_v_stmt], None).
Proof.
  assert (Hk : nodes.RemoveType drop_view_v <> nodes.OBJECT_TABLE) by discriminate.
  split; [exact Hk|]. split.
  - exact (proj1 (@translate_DropStmt_other_kind drop_view_v (parser_of [])
                    (reader_of "") Hk)).
  - apply (proj2 (@translate_DropStmt_other_kind drop_view_v
             (parser_of (map raw [nodes.N_CreateStmt create_t] ++
                         raw (nodes.N_DropStmt drop_view_v) :: map raw [select_1]))
             (reader_of "CREATE TABLE ...; DROP VIEW IF EXISTS v; SELECT 1;") Hk)
             [nodes.N_CreateStmt create_t] [Some create_t_stmt] [select_1] [None]);
      [reflexivity | reflexivity | repeat constructor | repeat constructor].
Defined.

(** * Further properties of parse.go *)

(** ** stringSlice and parseTableName *)

Lemma stringSlice_items_app (xs ys : list nodes.Node) :
  stringSlice_items (xs ++ ys) = stringSlice_items xs ++ stringSlice_items ys.
Proof.
  induction xs as [|x xs IH]; simpl; [reflexivity|].
  destruct x; simpl; rewrite IH; reflexivity.
Qed.

(** X1.  [stringSlice] returns the strings of the [String] items and of no
    other item, it is never longer than the list, and the slice of a
    concatenation is the concatenation of the slices. *)
Theorem stringSlice_keeps_the_strings (xs ys : list nodes.Node) :
  (forall s, In s (stringSlice {| nodes.Items := xs |}) <-> In (nodes.String s) xs) /\
  length (stringSlice {| nodes.Items := xs |}) <= length xs /\
  stringSlice {| nodes.Items := xs ++ ys |} =
  stringSlice {| nodes.Items := xs |} ++ stringSlice {| nodes.Items := ys |}.
Proof.
  unfold stringSlice; simpl. split; [|split].
  - intros s. induction xs as [|x xs IH]; simpl; [tauto|].
    destruct x; simpl; rewrite IH; split; intros H;
      try (right; exact H); try (destruct H as [H|H]; [discriminate H | exact H]).
    + destruct H as [->|H]; [left; reflexivity | right; exact H].
    + destruct H as [H|H]; [injection H as ->; left; reflexivity | right; exact H].
  - induction xs as [|x xs IH]; simpl; [lia|]. destruct x; simpl; lia.
  - apply stringSlice_items_app.
Qed.

(** X2.  [parseTableName] returns a table name and a nil error, or a nil
    table name and an error: never both, never neither. *)
Theorem parseTableName_exclusive (node : nodes.Node) :
  (exists name, parseTableName node = (Some name, None)) \/
  (exists e, parseTableName node = (None, Some e)).
Proof.
  unfold parseTableName. destruct node; eauto.
  destruct (stringSlice l) as [|a [|b [|c [|d rest]]]]; eauto.
Qed.

(** X3.  [parseTableName] succeeds exactly on a relation reference and on a
    list with one, two or three [String] items. *)
Theorem parseTableName_succeeds_iff (node : nodes.Node) :
  snd (parseTableName node) = None <->
  (exists r, node = nodes.N_RangeVar r) \/
  (exists l, node = nodes.List l /\ 1 <= length (stringSlice l) <= 3).
Proof.
  unfold parseTableName. split.
  - destruct node; simpl; try discriminate.
    + intros H. right. exists l. split; [reflexivity|].
      destruct (stringSlice l) as [|a [|b [|c [|d rest]]]]; simpl in *;
        try discriminate; lia.
    + intros _. left. eauto.
  - intros [(r & ->)|(l & -> & Hlen)]; [reflexivity|].
    destruct (stringSlice l) as [|a [|b [|c [|d rest]]]]; simpl in *;
      try reflexivity; lia.
Qed.

(** X4.  On a list, [parseTableName] sees the [String] items only: the
    result, and the text of the error, are those of the list without its
    other items. *)
Theorem parseTableName_ignores_other_items (l : nodes.ListT) :
  parseTableName (nodes.List l) = parseTableName (identifier_list (stringSlice l)).
Proof.
  unfold parseTableName, identifier_list, join, stringSlice. simpl nodes.Items.
  rewrite stringSlice_items_Strings. reflexivity.
Qed.

(** X5.  The parts of a resolved identifier list are read back from the
    table name: they are its catalog, schema and name without the leading
    fields the list was too short for, and the name is the last part. *)
Theorem parseTableName_parts_read_back (parts : list string) (name : ast.TableName) :
  parseTableName (identifier_list parts) = (Some name, None) ->
  parts = skipn (3 - length parts) [ast.Catalog name; ast.Schema name; ast.Name name] /\
  last parts "" = ast.Name name.
Proof.
  unfold parseTableName, identifier_list, join, stringSlice. simpl nodes.Items.
  rewrite stringSlice_items_Strings.
  destruct parts as [|a [|b [|c [|d rest]]]]; intros H; try discriminate H;
    injection H as <-; split; reflexivity.
Qed.

Lemma parseTableName_parts_read_back_witness :
  parseTableName (identifier_list ["public"; "t"]) =
    (Some {| ast.Catalog := ""; ast.Schema := "public"; ast.Name := "t" |}, None) /\
  ["public"; "t"] = skipn (3 - 2) [""; "public"; "t"].
Proof.
  split; [reflexivity|].
  exact (proj1 (@parseTableName_parts_read_back ["public"; "t"]
                  {| ast.Catalog := ""; ast.Schema := "public"; ast.Name := "t" |} eq_refl)).
Defined.



(** ** translate: errors, skips and panics *)

Lemma translate_objects_error (objs : list nodes.Node) (acc : list (ptr ast.TableName))
    (e : error) :
  translate_objects nodes.OBJECT_TABLE objs acc = inl e <->
  exists pre obj post,
    objs = pre ++ obj :: post /\ Forall resolves pre /\ snd (parseTableName obj) = Some e.
Proof.
  split.
  - revert acc. induction objs as [|obj objs IH]; intros acc; simpl; [discriminate|].
    destruct (parseTableName obj) as [name [e'|]] eqn:Hobj.
    + intros H. injection H as ->. exists [], obj, objs.
      split; [reflexivity|]. split; [constructor | now rewrite Hobj].
    + intros H. destruct (IH _ H) as (pre & o & post & -> & Hpre & Ho).
      exists (obj :: pre), o, post. split; [reflexivity|]. split; [|exact Ho].
      constructor; [unfold resolves; now rewrite Hobj | exact Hpre].
  - intros (pre & obj & post & -> & Hpre & Ho). revert acc.
    induction Hpre as [|o pre Hres _ IH]; intros acc; simpl.
    + destruct (parseTableName obj) as [name err]; simpl in Ho. subst err. reflexivity.
    + unfold resolves in Hres. destruct (parseTableName o) as [name err]; simpl in Hres.
      subst err. apply IH.
Qed.

(** X7.  [translate] returns an error for a DROP of tables only: the
    ALTER TABLE and CREATE TABLE cases never return one.  The error of a
    DROP is the error of the first object that does not resolve, and it
    comes with a nil statement. *)
Theorem translate_error_only_from_drop (node : nodes.Node) (o : option ast.Node) (e : error) :
  translate node = Returns (o, Some e) <->
  o = None /\
  exists n pre obj post,
    node = nodes.N_DropStmt n /\
    nodes.RemoveType n = nodes.OBJECT_TABLE /\
    nodes.Items (nodes.Objects n) = pre ++ obj :: post /\
    Forall resolves pre /\ snd (parseTableName obj) = Some e.
Proof.
  split.
  - unfold translate. destruct node; try discriminate.
    + destruct (nodes.Relation s) as [rel|]; [|discriminate]. run.
      rewrite parseTableName_RangeVar.
      destruct (translate_cmds (nodes.Items (nodes.Cmds s)) []); discriminate.
    + destruct (nodes.CreateStmt_Relation s) as [rel|]; [|discriminate]. run.
      rewrite parseTableName_RangeVar.
      destruct (translate_elts (nodes.Items (nodes.TableElts s)) []); discriminate.
    + destruct (nodes.RemoveType s) as [|code] eqn:Hk.
      * destruct (translate_objects nodes.OBJECT_TABLE (nodes.Items (nodes.Objects s)) [])
          as [e'|tables] eqn:Hobjs; [|discriminate].
        intros H. injection H as <- ->. split; [reflexivity|].
        apply translate_objects_error in Hobjs.
        destruct Hobjs as (pre & obj & post & H1 & H2 & H3).
        exists s, pre, obj, post. auto.
      * rewrite translate_objects_other. discriminate.
  - intros (-> & n & pre & obj & post & -> & Hk & Hitems & Hpre & Hobj).
    unfold translate. rewrite Hk.
    assert (H : translate_objects nodes.OBJECT_TABLE (nodes.Items (nodes.Objects n)) [] = inl e).
    { apply translate_objects_error. exists pre, obj, post. auto. }
    rewrite H. reflexivity.
Qed.

Lemma translate_error_only_from_drop_witness :
  translate (nodes.N_DropStmt drop_four_parts) =
  Returns (None, Some (New "invalid table name: a.b.c.d")).
Proof.
  apply (proj2 (translate_error_only_from_drop (nodes.N_DropStmt drop_four_parts) None
                  (New "invalid table name: a.b.c.d"))).
  split; [reflexivity|].
  exists drop_four_parts, [], (identifier_list ["a"; "b"; "c"; "d"]), [].
  repeat split; constructor.
Defined.

(** X8.  [translate] returns (nil, nil) for the nodes it has no case for
    and for no other: an ALTER TABLE, CREATE TABLE or DROP node that is
    translated without error gives a statement. *)
Theorem translate_nil_nil_iff_unsupported (node : nodes.Node) :
  translate node = Returns (None, None) <-> supported node = false.
Proof.
  split.
  - unfold translate. destruct node; try reflexivity.
    + destruct (nodes.Relation s) as [rel|]; [|discriminate]. run.
      rewrite parseTableName_RangeVar.
      destruct (translate_cmds (nodes.Items (nodes.Cmds s)) []); discriminate.
    + destruct (nodes.CreateStmt_Relation s) as [rel|]; [|discriminate]. run.
      rewrite parseTableName_RangeVar.
      destruct (translate_elts (nodes.Items (nodes.TableElts s)) []); discriminate.
    + destruct (translate_objects (nodes.RemoveType s) (nodes.Items (nodes.Objects s)) []);
        discriminate.
  - destruct node; simpl; intros H; try discriminate H; reflexivity.
Qed.

Lemma translate_elt_ColumnDef (d : nodes.ColumnDef) (acc : list (ptr ast.ColumnDef)) :
  translate_elt (nodes.N_ColumnDef d) acc =
  match extract_column d with
  | Some col => Returns (acc ++ [Some col])
  | None => Panics nil_dereference
  end.
Proof.
  unfold translate_elt, extract_column.
  destruct (nodes.Colname d) as [colname|]; [|reflexivity].
  destruct (nodes.TypeName d) as [tn|]; reflexivity.
Qed.

Lemma translate_elts_panics (elts : list nodes.Node) (acc : list (ptr ast.ColumnDef))
    (p : panic) :
  translate_elts elts acc = Panics p <->
  p = nil_dereference /\
  Exists (fun d => extract_column d = None) (column_definitions elts).
Proof.
  revert acc. induction elts as [|e elts IH]; intros acc.
  - simpl. split; [discriminate | intros [_ H]; inversion H].
  - destruct e; try apply IH.
    change (column_definitions (nodes.N_ColumnDef d :: elts))
      with (d :: column_definitions elts).
    cbn [translate_elts]. rewrite translate_elt_ColumnDef.
    destruct (extract_column d) as [col|] eqn:Hd; cbn [bind].
    + rewrite IH. split; intros [Hp H]; (split; [exact Hp|]).
      * right; exact H.
      * inversion H as [? ? Hd'|]; subst; [congruence | assumption].
    + split; [intros H; injection H as <-; split; [reflexivity | left; exact Hd]
             | intros [-> _]; reflexivity].
Qed.

(** X9.  [translate] panics on ALTER TABLE and CREATE TABLE nodes only: a
    DROP node and a node of a kind without a case always return. *)
Theorem translate_panics_only_alter_create (node : nodes.Node) (p : panic) :
  translate node = Panics p ->
  (exists n, node = nodes.N_AlterTableStmt n) \/ (exists n, node = nodes.N_CreateStmt n).
Proof.
  unfold translate. destruct node; try discriminate; eauto.
  destruct (translate_objects (nodes.RemoveType s) (nodes.Items (nodes.Objects s)) []);
    discriminate.
Qed.

Lemma translate_panics_only_alter_create_witness :
  translate (nodes.N_AlterTableStmt alter_t_misshaped) = Panics interface_conversion /\
  ((exists n, nodes.N_AlterTableStmt alter_t_misshaped = nodes.N_AlterTableStmt n) \/
   (exists n, nodes.N_AlterTableStmt alter_t_misshaped = nodes.N_CreateStmt n)).
Proof.
  split; [reflexivity|].
  exact (@translate_panics_only_alter_create (nodes.N_AlterTableStmt alter_t_misshaped)
           interface_conversion eq_refl).
Defined.

(** X10.  The CREATE TABLE case panics exactly when the relation pointer is
    nil or a column definition of the list has a nil name or type pointer,
    and the panic is then the nil dereference. *)
Theorem translate_CreateStmt_panics (n : nodes.CreateStmt) (p : panic) :
  translate (nodes.N_CreateStmt n) = Panics p <->
  p = nil_dereference /\
  (nodes.CreateStmt_Relation n = None \/
   Exists (fun d => extract_column d = None)
          (column_definitions (nodes.Items (nodes.TableElts n)))).
Proof.
  unfold translate. destruct (nodes.CreateStmt_Relation n) as [rel|]; run.
  - rewrite parseTableName_RangeVar.
    destruct (translate_elts (nodes.Items (nodes.TableElts n)) []) as [cols|q] eqn:Hcols.
    + split; [discriminate|]. intros [-> [H|H]]; [discriminate H|].
      assert (Hp : translate_elts (nodes.Items (nodes.TableElts n)) [] = Panics nil_dereference)
        by (apply translate_elts_panics; auto).
      rewrite Hp in Hcols. discriminate Hcols.
    + apply translate_elts_panics in Hcols. destruct Hcols as [-> Hex].
      split; [intros H; injection H as <-; auto | intros [-> _]; reflexivity].
  - split; [intros H; injection H as <-; auto | intros [-> _]; reflexivity].
Qed.

Lemma translate_CreateStmt_panics_witness :
  translate (nodes.N_CreateStmt create_t_untyped) = Panics nil_dereference.
Proof.
  apply (proj2 (translate_CreateStmt_panics create_t_untyped nil_dereference)).
  split; [reflexivity|]. right.
  apply Exists_cons_tl. apply Exists_cons_hd. reflexivity.
Defined.

(** ** translate: the commands of ALTER TABLE *)

Lemma translate_cmd_heads (c : nodes.Node) (acc items : list ast.Node) :
  translate_cmd c acc = Returns items ->
  exists cs, items = acc ++ map ast.N_AlterTableCmd cs /\
    map head_of cs = command_head c /\ Forall definition_matches_subtype cs.
Proof.
  assert (Hnone : acc = acc ++ map ast.N_AlterTableCmd []) by (simpl; now rewrite app_nil_r).
  destruct c as [| | | | | | | |cmd| | | | |]; simpl;
    try (intros H; injection H as <-; exists []; repeat split; [exact Hnone | constructor]).
  destruct (nodes.Subtype cmd); simpl.
  - destruct (nodes.Def cmd); simpl; try discriminate.
    destruct (nodes.Colname d); simpl; [|discriminate].
    destruct (nodes.TypeName d); simpl; [|discriminate].
    intros H; injection H as <-. eexists [_]. repeat split.
    constructor; [simpl; discriminate | constructor].
  - destruct (nodes.Def cmd); simpl; try discriminate.
    destruct (nodes.Colname d); simpl; [|discriminate].
    destruct (nodes.TypeName d); simpl; [|discriminate].
    intros H; injection H as <-. eexists [_]. repeat split.
    constructor; [simpl; discriminate | constructor].
  - intros H; injection H as <-. eexists [_]. repeat split.
    constructor; [reflexivity | constructor].
  - intros H; injection H as <-. eexists [_]. repeat split.
    constructor; [reflexivity | constructor].
  - intros H; injection H as <-. eexists [_]. repeat split.
    constructor; [reflexivity | constructor].
  - intros H; injection H as <-. exists []. repeat split; [exact Hnone | constructor].
Qed.

Lemma translate_cmds_heads (cmds : list nodes.Node) (acc items : list ast.Node) :
  translate_cmds cmds acc = Returns items ->
  exists cs, items = acc ++ map ast.N_AlterTableCmd cs /\
    map head_of cs = flat_map command_head cmds /\ Forall definition_matches_subtype cs.
Proof.
  revert acc. induction cmds as [|c cmds IH]; intros acc; simpl.
  - intros H; injection H as <-. exists []. simpl. rewrite app_nil_r. repeat split. constructor.
  - destruct (translate_cmd c acc) as [acc'|p] eqn:Hc; simpl; [|discriminate].
    intros H. destruct (translate_cmd_heads _ _ Hc) as (cs1 & -> & Hh1 & Hd1).
    destruct (IH _ H) as (cs2 & -> & Hh2 & Hd2).
    exists (cs1 ++ cs2). rewrite !map_app, <- app_assoc, Hh1, Hh2.
    repeat split. apply Forall_app; auto.
Qed.

Lemma translate_cmd_runs_iff (c : nodes.Node) (acc : list ast.Node) :
  (exists items, translate_cmd c acc = Returns items) <-> command_runs c.
Proof.
  unfold command_runs, carries_definition.
  destruct c as [| | | | | | | |cmd| | | | |]; simpl;
    try (split; [intros _ cmd' H; discriminate H | eauto]).
  split.
  - intros (items & H) cmd' Heq Hs. injection Heq as <-.
    destruct Hs as [Hs|Hs]; rewrite Hs in H;
      (destruct (nodes.Def cmd); simpl in H; try discriminate H;
       exists d; split; [reflexivity|]; unfold extract_column;
       destruct (nodes.Colname d); simpl in H; [|discriminate H];
       destruct (nodes.TypeName d); simpl in H; [discriminate | discriminate H]).
  - intros Hrun. specialize (Hrun cmd eq_refl).
    destruct (nodes.Subtype cmd); eauto;
      (destruct Hrun as (d & -> & Hd); [auto|]; unfold extract_column in Hd; simpl;
       destruct (nodes.Colname d); [|congruence];
       destruct (nodes.TypeName d); [|congruence]; simpl; eauto).
Qed.

Lemma translate_cmds_runs_iff (cmds : list nodes.Node) (acc : list ast.Node) :
  (exists items, translate_cmds cmds acc = Returns items) <-> Forall command_runs cmds.
Proof.
  revert acc. induction cmds as [|c cmds IH]; intros acc; simpl.
  - split; [constructor | eauto].
  - split.
    + intros (items & H).
      destruct (translate_cmd c acc) as [acc'|p] eqn:Hc; simpl in H; [|discriminate H].
      constructor.
      * apply (translate_cmd_runs_iff c acc). eauto.
      * apply (IH acc'). eauto.
    + intros H. inversion H as [|? ? Hc Hrest]; subst.
      apply (translate_cmd_runs_iff c acc) in Hc. destruct Hc as (acc' & ->). simpl.
      apply IH. exact Hrest.
Qed.

(** X11.  The ALTER TABLE case returns exactly when the relation pointer is
    set and every command that carries a definition holds a column
    definition with name and type set.  It then returns a statement, with no
    error, whose commands are, in order, one per input command of the five
    translated subtypes, each with the subtype, the column name and the
    missing-ok flag of its input command, and with a column exactly when
    the subtype is ADD COLUMN or ALTER COLUMN TYPE. *)
Theorem translate_AlterTableStmt_commands (n : nodes.AlterTableStmt) :
  ((exists res, translate (nodes.N_AlterTableStmt n) = Returns res) <->
   (exists rel, nodes.Relation n = Some rel) /\
   Forall command_runs (nodes.Items (nodes.Cmds n))) /\
  (forall res, translate (nodes.N_AlterTableStmt n) = Returns res ->
     exists rel cs,
       nodes.Relation n = Some rel /\
       res = (Some (ast.N_AlterTableStmt
                 {| ast.Table := fst (parseTableName (nodes.N_RangeVar rel));
                    ast.Cmds := Some {| ast.Items := map ast.N_AlterTableCmd cs |} |}),
              None) /\
       map head_of cs = flat_map command_head (nodes.Items (nodes.Cmds n)) /\
       Forall definition_matches_subtype cs).
Proof.
  unfold translate. destruct (nodes.Relation n) as [rel|]; run.
  - rewrite parseTableName_RangeVar.
    pose proof (translate_cmds_runs_iff (nodes.Items (nodes.Cmds n)) []) as Hruns.
    destruct (translate_cmds (nodes.Items (nodes.Cmds n)) []) as [items|p] eqn:Hcmds.
    + split.
      * split; [intros _; split; [eauto | apply Hruns; eauto] | eauto].
      * intros res H. injection H as <-.
        destruct (translate_cmds_heads _ _ Hcmds) as (cs & -> & Hh & Hd).
        exists rel, cs. rewrite parseTableName_RangeVar. simpl.
        repeat split; assumption.
    + split.
      * split; [intros (res & H); discriminate H|].
        intros [_ H]. apply Hruns in H. destruct H as (items & H). discriminate H.
      * intros res H. discriminate H.
  - split.
    + split; [intros (res & H); discriminate H | intros [(rel & H) _]; discriminate H].
    + intros res H. discriminate H.
Qed.

Lemma translate_AlterTableStmt_commands_witness :
  exists rel cs,
    nodes.Relation alter_t_three_commands = Some rel /\
    translate (nodes.N_AlterTableStmt alter_t_three_commands) =
      Returns (Some (ast.N_AlterTableStmt
                 {| ast.Table := fst (parseTableName (nodes.N_RangeVar rel));
                    ast.Cmds := Some {| ast.Items := map ast.N_AlterTableCmd cs |} |}),
               None) /\
    map head_of cs = [(ast.AT_AddColumn, None, false); (ast.AT_DropColumn, Some "old", true)].
Proof.
  destruct (proj2 (translate_AlterTableStmt_commands alter_t_three_commands) _ eq_refl)
    as (rel & cs & Hrel & Hres & Hheads & _).
  exists rel, cs. split; [exact Hrel|]. split; [|exact Hheads].
  rewrite <- Hres. reflexivity.
Defined.

(** ** Parse: the whole document *)

Lemma kept_length (results : list (option ast.Node)) :
  length (kept results) <= length results.
Proof.
  induction results as [|[n|] results IH]; simpl; lia.
Qed.

Lemma Parse_loop_returns (tree : list nodes.Node) (stmts out : list ast.Statement) :
  Parse_loop tree stmts = Returns (out, None) ->
  exists ss results,
    tree = map raw ss /\
    Forall2 (fun s o => translate s = Returns (o, None)) ss results /\
    out = stmts ++ kept results.
Proof.
  revert stmts. induction tree as [|stmt tree IH]; intros stmts; simpl.
  - intros H; injection H as <-. exists [], []. simpl. rewrite app_nil_r.
    repeat split. constructor.
  - destruct stmt; try discriminate.
    destruct s as [s]. simpl.
    destruct (translate s) as [[[n|] [err|]]|p] eqn:Hs; simpl; try discriminate.
    + intros H. destruct (IH _ H) as (ss & results & -> & Hall & ->).
      exists (s :: ss), (Some n :: results). split; [reflexivity|]. split.
      * constructor; assumption.
      * unfold kept; simpl. now rewrite <- app_assoc.
    + intros H. destruct (IH _ H) as (ss & results & -> & Hall & ->).
      exists (s :: ss), (None :: results). split; [reflexivity|]. split.
      * constructor; assumption.
      * reflexivity.
Qed.

Lemma Parse_loop_from (tree : list nodes.Node) (stmts : list ast.Statement) :
  Parse_loop tree stmts =
  match Parse_loop tree [] with
  | Returns (out, None) => Returns (stmts ++ out, None)
  | other => other
  end.
Proof.
  revert stmts. induction tree as [|stmt tree IH]; intros stmts; simpl.
  - now rewrite app_nil_r.
  - destruct stmt; try reflexivity.
    destruct (translate (nodes.Stmt s)) as [[[n|] [err|]]|p]; simpl; try reflexivity.
    + rewrite (IH (stmts ++ _)), (IH [_]).
      destruct (Parse_loop tree []) as [[out [e|]]|p]; try reflexivity.
      now rewrite <- app_assoc.
    + apply IH.
Qed.

Lemma Parse_loop_app (t1 t2 : list nodes.Node) (stmts : list ast.Statement) :
  Parse_loop (t1 ++ t2) stmts =
  match Parse_loop t1 stmts with
  | Returns (out, None) => Parse_loop t2 out
  | other => other
  end.
Proof.
  revert stmts. induction t1 as [|stmt t1 IH]; intros stmts; simpl; [reflexivity|].
  destruct stmt; try reflexivity.
  destruct (translate (nodes.Stmt s)) as [[[n|] [err|]]|p]; simpl; try reflexivity; apply IH.
Qed.



(** X13.  When [Parse] returns without error, every element of the parse
    tree was a raw-statement wrapper whose statement was translated without
    error, the output is the non-nil translations in that order, each
    wrapped in a non-nil [RawStmt], and it is no longer than the tree. *)
Theorem Parse_success_accounts_for_the_tree
    (pg_Parse : string -> list nodes.Node * option error) (r : Reader)
    (tree : list nodes.Node) (out : list ast.Statement) :
  ReadAll_err r = None ->
  pg_Parse (ReadAll_contents r) = (tree, None) ->
  Parse pg_Parse r = Returns (out, None) ->
  (exists ss results,
     tree = map raw ss /\
     Forall2 (fun s o => translate s = Returns (o, None)) ss results /\
     out = kept results) /\
  Forall (fun s => ast.Raw s <> None) out /\
  length out <= length tree.
Proof.
  intros Hr Hp. rewrite (Parse_of_tree pg_Parse r Hr Hp). intros H.
  destruct (Parse_loop_returns _ _ H) as (ss & results & -> & Hall & ->). simpl.
  split; [exists ss, results; auto|]. split.
  - unfold kept. apply Forall_forall. intros s Hin. apply in_flat_map in Hin.
    destruct Hin as ([n|] & _ & Hin); [|contradiction].
    destruct Hin as [<-|[]]. discriminate.
  - rewrite length_map, (Forall2_length Hall). apply kept_length.
Qed.

Lemma Parse_success_accounts_for_the_tree_witness :
  Parse (parser_of (map raw [nodes.N_CreateStmt create_t; select_1; nodes.N_DropStmt drop_a_b]))
        (reader_of "three statements") =
    Returns ([statement_of create_t_stmt; statement_of drop_a_b_stmt], None) /\
  length [statement_of create_t_stmt; statement_of drop_a_b_stmt] <= 3.
Proof.
  split; [reflexivity|].
  exact (proj2 (proj2 (@Parse_success_accounts_for_the_tree
           (parser_of (map raw [nodes.N_CreateStmt create_t; select_1; nodes.N_DropStmt drop_a_b]))
           (reader_of "three statements")
           (map raw [nodes.N_CreateStmt create_t; select_1; nodes.N_DropStmt drop_a_b])
           [statement_of create_t_stmt; statement_of drop_a_b_stmt]
           eq_refl eq_refl eq_refl))).
Defined.

(** X14.  Statements are translated independently of each other: when the
    tree of a document is the tree of a first document followed by the tree
    of a second, and [Parse] returns the statements [out1] for the first,
    then for the whole it returns what it returns for the second, with
    [out1] put before the statements on success; and an error or a panic of
    the first is the outcome for the whole. *)
Theorem Parse_of_concatenation
    (pg_Parse : string -> list nodes.Node * option error) (r1 r2 r : Reader)
    (t1 t2 : list nodes.Node) :
  ReadAll_err r1 = None -> pg_Parse (ReadAll_contents r1) = (t1, None) ->
  ReadAll_err r2 = None -> pg_Parse (ReadAll_contents r2) = (t2, None) ->
  ReadAll_err r = None -> pg_Parse (ReadAll_contents r) = (t1 ++ t2, None) ->
  Parse pg_Parse r =
  match Parse pg_Parse r1 with
  | Returns (out1, None) =>
      match Parse pg_Parse r2 with
      | Returns (out2, None) => Returns (out1 ++ out2, None)
      | other => other
      end
  | other => other
  end.
Proof.
  intros Hr1 Hp1 Hr2 Hp2 Hr Hp.
  rewrite (Parse_of_tree pg_Parse r Hr Hp), (Parse_of_tree pg_Parse r1 Hr1 Hp1),
    (Parse_of_tree pg_Parse r2 Hr2 Hp2).
  rewrite Parse_loop_app.
  destruct (Parse_loop t1 []) as [[out1 [e|]]|p]; try reflexivity.
  apply Parse_loop_from.
Qed.

Lemma Parse_of_concatenation_witness :
  Parse parser_by_text (reader_of "CREATE; DROP") =
  Returns ([statement_of create_t_stmt; statement_of drop_a_b_stmt], None).
Proof.
  exact (@Parse_of_concatenation parser_by_text
           (reader_of "CREATE") (reader_of "DROP") (reader_of "CREATE; DROP")
           [raw (nodes.N_CreateStmt create_t)] [raw (nodes.N_DropStmt drop_a_b)]
           eq_refl eq_refl eq_refl eq_refl eq_refl eq_refl).
Defined.

Lemma stringSlice_keeps_the_strings_witness :
  In (nodes.String "a") (nodes.Items name_a_star) /\
  In "a" (stringSlice name_a_star) /\
  length (stringSlice name_a_star) <= 2.
Proof.
  assert (Hin : In (nodes.String "a") (nodes.Items name_a_star)) by (left; reflexivity).
  split; [exact Hin|]. split.
  - exact (proj2 (proj1 (stringSlice_keeps_the_strings (nodes.Items name_a_star) []) "a") Hin).
  - exact (proj1 (proj2 (stringSlice_keeps_the_strings (nodes.Items name_a_star) []))).
Defined.

Lemma parseTableName_succeeds_iff_witness :
  1 <= length (stringSlice name_a_star) <= 3 /\
  snd (parseTableName (nodes.List name_a_star)) = None.
Proof.
  assert (Hlen : 1 <= length (stringSlice name_a_star) <= 3) by (simpl; lia).
  split; [exact Hlen|].
  apply (proj2 (parseTableName_succeeds_iff (nodes.List name_a_star))).
  right. exists name_a_star. split; [reflexivity | exact Hlen].
Defined.

Lemma translate_nil_nil_iff_unsupported_witness :
  supported select_1 = false /\ translate select_1 = Returns (None, None).
Proof.
  split; [reflexivity|].
  exact (proj2 (translate_nil_nil_iff_unsupported select_1) eq_refl).
Defined.
